(** * potpourri.cpp: a shallow embedding and its checked properties

    The program is one translation unit with four demonstrations run in
    sequence by [main]: a token validator built on [try]/[catch], the
    fixed-size vector template [Vec<T, N>], exclusive and shared ownership of
    polymorphic objects ([A], [B], [C]), and a gallery of closures stored as
    [std::function<std::string(std::string)>].

    Conventions of the embedding:
    - [std::cout] is the list of values inserted into it, one [item] per
      [operator<<] call, oldest first;
    - a computation is a function from the [world] to the new world and a
      result [res]: a value, a thrown exception, or undefined behaviour;
    - storage that C++ leaves uninitialised is given its prior content as an
      explicit argument, so that statements quantify over it;
    - [delete] through a pointer to [A] runs the destructor of the static
      type, as implementations do for a destructor that is not virtual;
    - [int] has 32 bits and [size_t] 64; incrementing an [int] that holds
      [INT_MAX] is undefined;
    - a result [Undef] says that the behaviour is undefined from some step
      on: the world beside it is the one reached before that step, and
      nothing is said about what the program does afterwards;
    - the operations of vectors are generic in the element type; [float] is
      IEEE binary32 with round to nearest even, a [double] literal is the
      binary64 nearest to its decimal value, and a stream shows a [float]
      as [printf] does with [%g] and precision 6. *)

From Stdlib Require Import ZArith String Ascii List Lia SpecFloat.
From stdpp Require Import base option list gmap strings pretty.

Local Open Scope Z_scope.
Local Open Scope string_scope.
Local Open Scope list_scope.

(** ** Exceptions and results *)

(** The two classes of [std::logic_error] the program throws. *)
Inductive exn_class : Type :=
  | out_of_range
  | invalid_argument.

Record exn : Type := mk_exn { exn_kind : exn_class; what : string }.

#[global] Instance exn_class_eq_dec : EqDecision exn_class.
Proof. solve_decision. Defined.

#[global] Instance exn_eq_dec : EqDecision exn.
Proof. solve_decision. Defined.

(** The outcome of evaluating a C++ expression or statement. [Undef] stands
    for undefined behaviour: an out-of-bounds access, a null dereference, or
    control reaching the end of a value-returning function. *)
Inductive res (A : Type) : Type :=
  | Val (a : A)
  | Exc (e : exn)
  | Undef.

Arguments Val {A} a.
Arguments Exc {A} e.
Arguments Undef {A}.

#[global] Instance res_ret : MRet res := fun A a => Val a.

#[global] Instance res_bind : MBind res := fun A B f r =>
  match r with
  | Val a => f a
  | Exc e => Exc e
  | Undef => Undef
  end.

(** An unchecked array read, [a[i]]: outside the array it is undefined. *)
Definition subscript {A : Type} (a : list A) (i : nat) : res A :=
  match a !! i with
  | Some x => Val x
  | None => Undef
  end.

(** An unchecked array write, [a[i] = x]. *)
Definition assign {A : Type} (a : list A) (i : nat) (x : A) : res (list A) :=
  if decide (i < length a)%nat then Val (<[i := x]> a) else Undef.

(** ** Streams, heap and world *)

Definition addr : Type := nat.

(** One insertion into an output stream, by overload of [operator<<]. *)
Inductive item : Type :=
  | Chr (c : ascii)          (* os << char *)
  | Str (s : string)         (* os << const char* / std::string *)
  | Num (n : Z)              (* os << int / long *)
  | Ptr (p : addr).          (* os << const void* *)

Arguments Ptr p%_nat.

#[global] Instance item_eq_dec : EqDecision item.
Proof. solve_decision. Defined.

Definition nl : ascii := ascii_of_nat 10.

(** A string literal that ends with an escaped newline. *)
Definition line (s : string) : string := s +:+ String nl EmptyString.

(** The objects of the hierarchy: the dynamic type and its field. *)
Inductive object : Type :=
  | objB (x : Z)
  | objC (y : Z).

(** [ctrl] holds the use counts of the control blocks of [std::shared_ptr]. *)
Record world : Type := mk_world {
  cout : list item;
  heap : gmap addr object;
  ctrl : gmap nat nat;
  brk : addr;
  next_ctrl : nat
}.

Definition empty_world : world :=
  {| cout := []; heap := ∅; ctrl := ∅; brk := 0%nat; next_ctrl := 0%nat |}.

Definition set_cout (f : list item → list item) (w : world) : world :=
  {| cout := f (cout w); heap := heap w; ctrl := ctrl w;
     brk := brk w; next_ctrl := next_ctrl w |}.

Definition set_heap (f : gmap addr object → gmap addr object) (w : world) : world :=
  {| cout := cout w; heap := f (heap w); ctrl := ctrl w;
     brk := brk w; next_ctrl := next_ctrl w |}.

Definition set_ctrl (f : gmap nat nat → gmap nat nat) (w : world) : world :=
  {| cout := cout w; heap := heap w; ctrl := f (ctrl w);
     brk := brk w; next_ctrl := next_ctrl w |}.

(** ** The monad of statements *)

Definition M (A : Type) : Type := world → world * res A.

#[global] Instance M_ret : MRet M := fun A a w => (w, Val a).

#[global] Instance M_bind : MBind M := fun A B f m w =>
  match m w with
  | (w', Val a) => f a w'
  | (w', Exc e) => (w', Exc e)
  | (w', Undef) => (w', Undef)
  end.

Definition lift {A : Type} (r : res A) : M A := fun w => (w, r).

Definition throw {A : Type} (e : exn) : M A := lift (Exc e).

Definition undefined {A : Type} : M A := lift Undef.

(** [os << x] on [std::cout]. *)
Definition put (i : item) : M unit := fun w => (set_cout (.++ [i]) w, Val tt).

(** A handler of a [try] block: the classes it catches and its body. *)
Record handler (A : Type) : Type := mk_handler {
  catches : exn_class → bool;
  on_catch : exn → M A
}.

Arguments mk_handler {A} catches on_catch.
Arguments catches {A} h c.
Arguments on_catch {A} h e.

(** The first handler whose type matches the exception runs; with none the
    exception propagates. *)
Fixpoint dispatch {A : Type} (hs : list (handler A)) (e : exn) : M A :=
  match hs with
  | [] => throw e
  | h :: hs' => if catches h (exn_kind e) then on_catch h e else dispatch hs' e
  end.

Definition try_catch {A : Type} (body : M A) (hs : list (handler A)) : M A :=
  fun w =>
    match body w with
    | (w', Exc e) => dispatch hs e w'
    | other => other
    end.

Definition catch_out_of_range (c : exn_class) : bool :=
  bool_decide (c = out_of_range).

Definition catch_invalid_argument (c : exn_class) : bool :=
  bool_decide (c = invalid_argument).

(** [catch (const std::exception&)]: every class derives from it. *)
Definition catch_exception (c : exn_class) : bool := true.

(** ** 1. The token validator (main, lines 142-157) *)

Definition is_space (c : ascii) : bool :=
  let n := nat_of_ascii c in
  ((9 <=? n)%nat && (n <=? 13)%nat) || (n =? 32)%nat.

Fixpoint skip_ws (input : string) : string :=
  match input with
  | EmptyString => EmptyString
  | String c rest => if is_space c then skip_ws rest else input
  end.

Fixpoint take_word (input : string) : string :=
  match input with
  | EmptyString => EmptyString
  | String c rest => if is_space c then EmptyString else String c (take_word rest)
  end.

(** [std::string s; std::cin >> s;]: leading white space is skipped and the
    characters up to the next white space are stored; when nothing can be
    extracted [s] keeps its initial, empty value. *)
Definition cin_extract (input : string) : string := take_word (skip_ws input).

(** The body of the [try] block. *)
Definition validator_try (s : string) : M unit :=
  if (10 <? String.length s)%nat then
    throw (mk_exn out_of_range "Out of range")
  else if (String.length s <? 5)%nat then
    throw (mk_exn invalid_argument "invalid argument")
  else
    put (Str s);; put (Chr nl).

Definition print_what (e : exn) : M unit :=
  put (Str (what e));; put (Chr nl).

Definition validator (s : string) : M unit :=
  try_catch (validator_try s)
    [ mk_handler catch_out_of_range print_what;
      mk_handler catch_invalid_argument print_what ].

(** ** 2. The constant template [Vec<T, N>] (lines 14-74) *)

(** [struct Vec { T data[N]; }]. The template argument [N] is passed to each
    operation; a value of type [Vec<T, N>] has [N] cells. *)
Record Vec (T : Type) : Type := mk_Vec { data : list T }.

Arguments mk_Vec {T} data.
Arguments data {T} v.

Definition has_size {T : Type} (N : nat) (v : Vec T) : Prop := length (data v) = N.

(** The largest [int]. *)
Definition INT_MAX : Z := 2 ^ 31 - 1.

(** [i++] on an [int] counter that holds [i >= 0]: signed overflow is
    undefined. *)
Definition int_incr (i : nat) : res nat :=
  if decide (Z.of_nat i < INT_MAX)%Z then Val (S i) else Undef.

(** A counted loop [for (int i = 0; i < n; i++) s = body(i, s)] with a bound
    [n] of type [size_t]: the counter is never negative, so the comparison
    is that of the values; every round runs the body and then increments the
    counter. *)
Definition for_range {S : Type} (n : nat) (body : nat → S → res S) (s : S) : res S :=
  foldl (fun acc i => acc ≫= λ s, body i s ≫= λ s', int_incr i ≫= λ _, Val s')
        (Val s) (seq 0 n).

(** [std::copy(first, last, d_first)]: elements are assigned one by one to
    consecutive positions of the destination. *)
Fixpoint std_copy {T : Type} (src : list T) (dst : list T) (d_first : nat) : res (list T) :=
  match src with
  | [] => Val dst
  | x :: rest => assign dst d_first x ≫= fun dst' => std_copy rest dst' (S d_first)
  end.

Section VecT.
Context {T : Type}.

(** [Vec() : data() {}]: every cell is value-initialised. *)
Definition Vec_default (zero : T) (N : nat) : Vec T := mk_Vec (replicate N zero).

(** [Vec(std::initializer_list<T> il)]. The member [data] has no
    initialiser: [raw] is what its [N] cells hold when the body starts. *)
Definition Vec_of_list (N : nat) (raw : list T) (il : list T) : res (Vec T) :=
  if negb (length il =? N)%nat then
    Exc (mk_exn invalid_argument "Wrong number of arguments!")
  else
    d ← std_copy il raw 0;
    Val (mk_Vec d).

(** [Vec(const Vec<T,N>& v)]: [std::copy(&v[0], &v[N], data)]. *)
Definition Vec_copy (N : nat) (raw : list T) (v : Vec T) : res (Vec T) :=
  d ← std_copy (take N (data v)) raw 0;
  Val (mk_Vec d).
End VecT.

Section VecArith.
Context {T U : Type}.
(** [zero] is the value-initialised [U]; [add] and [mul] are the built-in
    [+] and [*] on a [T] and a [U], followed by the conversion to [U] done
    by the assignment to [result[i]]. *)
Context (zero : U) (add mul : T → U → U).

(** [template <typename U, size_t M> Vec<U, M> operator+(const Vec<U, M>& v)]
    of [Vec<T, N>]. *)
Definition Vec_plus (N M : nat) (this : Vec T) (v : Vec U) : res (Vec U) :=
  if negb (N =? M)%nat then
    Exc (mk_exn invalid_argument "Vector size mismatch!")
  else
    let result := Vec_default zero M in
    d ← for_range M (fun i result =>
           x ← subscript (data this) i;
           y ← subscript (data v) i;
           assign result i (add x y)) (data result);
    Val (mk_Vec d).

(** [operator*], the same loop with the product. *)
Definition Vec_times (N M : nat) (this : Vec T) (v : Vec U) : res (Vec U) :=
  if negb (N =? M)%nat then
    Exc (mk_exn invalid_argument "Vector size mismatch!")
  else
    let result := Vec_default zero M in
    d ← for_range M (fun i result =>
           x ← subscript (data this) i;
           y ← subscript (data v) i;
           assign result i (mul x y)) (data result);
    Val (mk_Vec d).
End VecArith.

(** The only stream the program inserts a [Vec] or an [A] into. *)
Inductive ostream : Type := std_cout.

(** [size_t] arithmetic wraps around; the width is that of a 64-bit target. *)
Definition size_t_bits : Z := 64.

Definition size_t_sub (a b : nat) : nat :=
  Z.to_nat ((Z.of_nat a - Z.of_nat b) mod 2 ^ size_t_bits).

(** A loop over a list in the monad of statements. *)
Fixpoint for_each {A : Type} (l : list A) (body : A → M unit) : M unit :=
  match l with
  | [] => mret tt
  | x :: rest => body x;; for_each rest body
  end.

Section VecPrint.
Context {T : Type}.
(** How [os << t] shows one element. *)
Context (show : T → item).

(** [friend std::ostream& operator<<(std::ostream& os, const Vec<T, N>& v)].
    The loop counts with an [int] up to [N - 1], computed in [size_t]; every
    round reads a cell, inserts it and the separator, and increments the
    counter. A vector type has [N >= 1] cells, an array of none not being
    standard. The body has no [return] statement: after the closing bracket
    control reaches the end of a function that returns a reference. *)
Definition Vec_shl (N : nat) (os : ostream) (v : Vec T) : M ostream :=
  put (Chr "[");;
  for_each (seq 0 (size_t_sub N 1)) (fun i =>
    x ← lift (subscript (data v) i);
    put (show x);; put (Str ", ");;
    lift (int_incr i);; mret tt);;
  x ← lift (subscript (data v) (size_t_sub N 1));
  put (show x);; put (Chr "]");;
  undefined.
End VecPrint.

(** ** 3. Ownership of polymorphic objects (lines 76-124) *)

(** The value of an [int] member while an object is constructed: none yet,
    or a definite one. Reading a member that has no value yet gives an
    indeterminate value. *)
Inductive int_cell : Type :=
  | Indeterminate
  | Definite (z : Z).

(** [B(int x) : x(x) {}]: in the initialiser the name [x] is the parameter,
    so the member gets the argument. *)
Definition B_init (x : Z) : int_cell :=
  let this_x := Indeterminate in
  Definite x.

(** [C(int x) : y(y) {}]: in the initialiser the name [y] is the member
    itself, which has no value yet: the member is initialised with its own
    indeterminate value and the parameter [x] is not used. *)
Definition C_init (x : Z) : int_cell :=
  let this_y := Indeterminate in
  this_y.

(** The number found in a member: a definite value itself; for an
    indeterminate one any number, here [any], may be found, and no two looks
    need agree. Statements about an object with such a member are made for
    every [any] and never look at the member. *)
Definition found (any : Z) (c : int_cell) : Z :=
  match c with
  | Definite z => z
  | Indeterminate => any
  end.

Definition B_ctor (any : Z) (x : Z) : object := objB (found any (B_init x)).

Definition C_ctor (any : Z) (x : Z) : object := objC (found any (C_init x)).

Definition C_y (o : object) : option Z :=
  match o with
  | objC y => Some y
  | objB _ => None
  end.

(** The value of a value-initialised [int]. *)
Definition int_default : Z := 0.

Definition B_foo : M unit := put (Str (line "B.foo()")).

Definition C_foo : M unit := put (Str (line "C.foo()")).

(** [a->foo()] through the vtable of the object at [p]. *)
Definition foo (p : addr) : M unit := fun w =>
  match heap w !! p with
  | Some (objB _) => B_foo w
  | Some (objC _) => C_foo w
  | None => (w, Undef)
  end.

(** The destructor bodies; a derived destructor ends by running its base's. *)
Definition A_dtor : M unit := put (Str (line "~A()")).

Definition B_dtor : M unit := put (Str (line "~B()"));; A_dtor.

Definition C_dtor : M unit := put (Str (line "~C()"));; A_dtor.

(** [friend std::ostream& operator<<(std::ostream& os, const A& a)]. *)
Definition A_shl (os : ostream) (a : addr) : M ostream :=
  put (Chr "(");; put (Ptr a);; put (Chr ")");;
  mret os.

(** [operator delete]: the storage at [a] is returned; nothing is live
    there afterwards. *)
Definition free (a : addr) : M unit := fun w =>
  match heap w !! a with
  | Some _ => (set_heap (delete a) w, Val tt)
  | None => (w, Undef)
  end.

(** [delete p] with [p] of static type [A*]. [~A()] is not virtual, so the
    destructor call is bound to [A::~A] whatever the dynamic type is; then the
    storage is returned. Deleting a null pointer does nothing. *)
Definition delete_A (p : option addr) : M unit :=
  match p with
  | None => mret tt
  | Some a => A_dtor;; free a
  end.

Section Ownership.
(** [junk a] stands for what may be found in a member that the constructor
    of the object at address [a] leaves indeterminate. *)
Context (junk : addr → Z).

Definition operator_new (ctor : Z → object) : M addr := fun w =>
  let a := brk w in
  ({| cout := cout w; heap := <[a := ctor (junk a)]> (heap w); ctrl := ctrl w;
      brk := S a; next_ctrl := next_ctrl w |}, Val a).

Definition new_B (x : Z) : M (option addr) :=
  a ← operator_new (fun raw => B_ctor raw x); mret (Some a).

Definition new_C (x : Z) : M (option addr) :=
  a ← operator_new (fun raw => C_ctor raw x); mret (Some a).
End Ownership.

(** [std::unique_ptr<A>]: the owned pointer, [None] for [nullptr]. *)
Definition unique_ptr : Type := option addr.

(** [std::make_unique<B>(x)] and [std::make_unique<C>(x)]. *)
Definition make_unique_B (junk : addr → Z) (x : Z) : M unique_ptr := new_B junk x.

Definition make_unique_C (junk : addr → Z) (x : Z) : M unique_ptr := new_C junk x.

(** Move construction from [std::move(u)]: the new handle, and the source
    left empty. *)
Definition unique_ptr_move (u : unique_ptr) : unique_ptr * unique_ptr := (u, None).

(** [u.release()]: the raw pointer, and the handle left empty. *)
Definition unique_ptr_release (u : unique_ptr) : option addr * unique_ptr := (u, None).

(** [~unique_ptr()] with [std::default_delete<A>]. *)
Definition unique_ptr_dtor (u : unique_ptr) : M unit :=
  match u with
  | None => mret tt
  | Some a => delete_A (Some a)
  end.

(** [*u] and [u->]. *)
Definition deref (p : option addr) : M addr :=
  match p with
  | Some a => mret a
  | None => undefined
  end.

(** [std::shared_ptr<A>]: the stored pointer and the control block. *)
Record shared_ptr : Type := mk_shared { sp_get : option addr; sp_ctrl : nat }.

(** [std::shared_ptr<A>(p)] from a raw pointer: a new control block that
    counts one owner and deletes through [A*]. *)
Definition shared_ptr_of_raw (p : option addr) : M shared_ptr := fun w =>
  let c := next_ctrl w in
  ({| cout := cout w; heap := heap w; ctrl := <[c := 1%nat]> (ctrl w);
      brk := brk w; next_ctrl := S c |}, Val (mk_shared p c)).

(** Copy construction: one more owner. *)
Definition shared_ptr_copy (s : shared_ptr) : M shared_ptr := fun w =>
  match ctrl w !! sp_ctrl s with
  | Some n => (set_ctrl <[sp_ctrl s := S n]> w, Val s)
  | None => (w, Undef)
  end.

Definition use_count (s : shared_ptr) : M Z := fun w =>
  match ctrl w !! sp_ctrl s with
  | Some n => (w, Val (Z.of_nat n))
  | None => (w, Undef)
  end.

(** [~shared_ptr()]: one owner less; the last one deletes the object. *)
Definition shared_ptr_dtor (s : shared_ptr) : M unit := fun w =>
  match ctrl w !! sp_ctrl s with
  | Some 1%nat => delete_A (sp_get s) (set_ctrl (delete (sp_ctrl s)) w)
  | Some (S (S n)) => (set_ctrl <[sp_ctrl s := S n]> w, Val tt)
  | _ => (w, Undef)
  end.

(** [void takes_ownership(std::unique_ptr<A> u_ptr)]; the parameter is
    destroyed when the call ends. *)
Definition takes_ownership (u_ptr : unique_ptr) : M unit :=
  put (Str "Took ownership of: ");;
  a ← deref u_ptr;
  A_shl std_cout a;;
  put (Chr nl);;
  unique_ptr_dtor u_ptr.

(** [void shared_ownership2(std::shared_ptr<A> s_ptr)]. *)
Definition shared_ownership2 (s_ptr : shared_ptr) : M unit :=
  put (Str "Took ownership of: ");;
  a ← deref (sp_get s_ptr);
  A_shl std_cout a;;
  put (Chr nl);;
  put (Str "use_count: ");;
  n ← use_count s_ptr;
  put (Num n);;
  put (Chr nl);;
  shared_ptr_dtor s_ptr.

(** [void shared_ownership(std::shared_ptr<A> s_ptr)]. The argument of the
    nested call is the lvalue [s_ptr], so the callee's parameter is a copy. *)
Definition shared_ownership (s_ptr : shared_ptr) : M unit :=
  put (Str "Took ownership of: ");;
  a ← deref (sp_get s_ptr);
  A_shl std_cout a;;
  put (Chr nl);;
  put (Str "use_count: ");;
  n ← use_count s_ptr;
  put (Num n);;
  put (Chr nl);;
  arg ← shared_ptr_copy s_ptr;
  shared_ownership2 arg;;
  put (Str "use_count: ");;
  m ← use_count s_ptr;
  put (Num m);;
  put (Chr nl);;
  shared_ptr_dtor s_ptr.

(** ** 4. Callables (lines 127-135) *)

(** [template <typename T> struct Adder { T y; ... }]. *)
Record Adder (T : Type) : Type := mk_Adder { Adder_y : T }.

Arguments mk_Adder {T} Adder_y.
Arguments Adder_y {T} a.

(** [T operator()(const T& t) { return y + t; }], with [plus] the [+] of [T]. *)
Definition Adder_call {T : Type} (plus : T → T → T) (self : Adder T) (t : T) : T :=
  plus (Adder_y self) t.

(** The variables of [main] that the closures capture. *)
Record locals : Type := mk_locals { greet : string; secret : Z }.

(** [std::function<std::string(std::string)>]. A call receives the current
    value of the enclosing variables: a capture by reference reads it from
    there, a capture by value was read when the closure was made. *)
Definition fn : Type := locals → string → string.

(** How [operator<<] formats an [int] or a [long]. *)
Definition show_int (n : Z) : string := pretty n.

(** [[&greet](std::string name){ return greet + name; }]. *)
Definition lambda_foo : fn := fun env name => greet env +:+ name.

(** [[secret](std::string name){ ... }], given the copy of [secret] made at
    the closure's creation; [oss] is the buffer of the [std::ostringstream]. *)
Definition lambda_bar (secret : Z) : fn := fun _ name =>
  let oss := "" in
  let oss := oss +:+ name in
  let oss := oss +:+ "got the secret (" in
  let oss := oss +:+ show_int secret in
  let oss := oss +:+ String ")" EmptyString in
  oss.

(** An [Adder<std::string>] stored in a [std::function]. *)
Definition fn_of_Adder (a : Adder string) : fn := fun _ t => Adder_call String.append a t.

(** ** [main], lines 166-176 *)

Section MainVectors.
(** [float] with its zero, sum and product, and how the stream shows one. *)
Context {F : Type} (zero : F) (fadd fmul : F → F → F) (show : F → item).

(** Line 166: [std::cout << (f * g) + f << '\n';] with [f] and [g] of type
    [Vec<float, 3>]. The newline is inserted into what [operator<<] of [Vec]
    returns. *)
Definition main_line_166 (f g : Vec F) : M unit :=
  fg ← lift (Vec_times zero fmul 3 3 f g);
  sum ← lift (Vec_plus zero fadd 3 3 fg f);
  os ← Vec_shl show 3 std_cout sum;
  match os with std_cout => put (Chr nl) end.

(** Lines 168-176: [g] is a [Vec<float, 3>] and [h] a [Vec<float, 4>]. *)
Definition main_mismatch (g h : Vec F) : M unit :=
  try_catch
    (m ← lift (Vec_plus zero fadd 3 4 g h);
     os ← Vec_shl show 4 std_cout m;
     match os with std_cout => put (Chr nl) end)
    [ mk_handler catch_exception print_what ].
End MainVectors.

(** ** [float] and how a stream shows it (lines 162-166) *)

(** An integer as a [double]. *)
Definition double_of_Z (n : Z) : spec_float := binary_normalize 53 1024 n 0 false.

(** The [double] literal whose decimal value is [n / d], for integers that a
    [double] holds exactly: the binary64 number nearest to the quotient. *)
Definition double_literal (n d : Z) : spec_float :=
  SFdiv 53 1024 (double_of_Z n) (double_of_Z d).

(** The conversion of a [double] to [float], to the nearest binary32. *)
Definition float_of_double (x : spec_float) : spec_float :=
  match x with
  | S754_finite s m e => binary_normalize 24 128 (if s then Z.neg m else Z.pos m) e s
  | _ => x
  end.

(** A value-initialised [float], and [+] and [*] on [float]. *)
Definition float_zero : spec_float := S754_zero false.

Definition float_add (x y : spec_float) : spec_float := SFadd 24 128 x y.

Definition float_mul (x y : spec_float) : spec_float := SFmul 24 128 x y.

(** The decimal exponent of the positive rational [num / den]: the [X] with
    [10 ^ X <= num / den < 10 ^ (X + 1)], searched upwards from 0 or
    downwards from -1. *)
Fixpoint log10_up (fuel : nat) (num den : Z) (X : Z) : Z :=
  match fuel with
  | O => X
  | S fuel' =>
      if (den * 10 ^ (X + 1) <=? num)%Z then log10_up fuel' num den (X + 1) else X
  end.

Fixpoint log10_down (fuel : nat) (num den : Z) (X : Z) : Z :=
  match fuel with
  | O => X
  | S fuel' =>
      if (num * 10 ^ (- X) <? den)%Z then log10_down fuel' num den (X - 1) else X
  end.

Definition floor_log10 (num den : Z) : Z :=
  if (den <=? num)%Z then log10_up 400 num den 0 else log10_down 400 num den (-1).

(** The integer nearest to [num / den], ties to even. *)
Definition round_half_even (num den : Z) : Z :=
  let q := (num / den)%Z in
  let r := (num mod den)%Z in
  if (2 * r <? den)%Z then q
  else if (den <? 2 * r)%Z then (q + 1)%Z
  else if Z.even q then q else (q + 1)%Z.

(** [num / den] rounded to [P] significant decimal digits: the digits as an
    integer [D] with [10 ^ (P - 1) <= D < 10 ^ P], and the decimal exponent
    of the rounded value. *)
Definition significant (P : Z) (num den : Z) : Z * Z :=
  let X := floor_log10 num den in
  let k := (P - 1 - X)%Z in
  let D := if (0 <=? k)%Z then round_half_even (num * 10 ^ k) den
           else round_half_even num (den * 10 ^ (- k)) in
  if (10 ^ P <=? D)%Z then ((10 ^ (P - 1))%Z, (X + 1)%Z) else (D, X).

Fixpoint strip_zeros_rev (s : list ascii) : list ascii :=
  match s with
  | c :: rest => if Ascii.eqb c "0" then strip_zeros_rev rest else s
  | [] => []
  end.

Definition strip_trailing_zeros (s : string) : string :=
  string_of_list_ascii (rev (strip_zeros_rev (rev (list_ascii_of_string s)))).

Fixpoint zeros (n : nat) : string :=
  match n with
  | O => ""
  | S n' => String "0" (zeros n')
  end.

(** An integer part and a fraction: trailing zeros of the fraction are
    dropped, and the point with them when nothing is left. *)
Definition with_fraction (int frac : string) : string :=
  match strip_trailing_zeros frac with
  | EmptyString => int
  | f => int +:+ "." +:+ f
  end.

Definition two_digits (n : Z) : string :=
  if (n <? 10)%Z then "0" +:+ pretty n else pretty n.

(** The conversion [%g] with precision [P] of the positive [num / den]: with
    [X] the decimal exponent of the value rounded to [P] digits, the fixed
    style is used if [-4 <= X < P] and the exponent style otherwise. *)
Definition fmt_g (P : Z) (num den : Z) : string :=
  let '(D, X) := significant P num den in
  let ds := pretty D in
  if ((-4 <=? X) && (X <? P))%Z then
    if (0 <=? X)%Z then
      with_fraction (String.substring 0 (Z.to_nat (X + 1)) ds)
                    (String.substring (Z.to_nat (X + 1)) (Z.to_nat (P - 1 - X)) ds)
    else
      with_fraction "0" (zeros (Z.to_nat (- X - 1)) +:+ ds)
  else
    with_fraction (String.substring 0 1 ds) (String.substring 1 (Z.to_nat (P - 1)) ds)
    +:+ "e" +:+ (if (X <? 0)%Z then "-" else "+") +:+ two_digits (Z.abs X).

(** [os << x] for a [float] on a stream in its initial state: the value,
    unchanged by the promotion to [double], in the style [%g] with the
    precision 6. *)
Definition show_float (x : spec_float) : string :=
  match x with
  | S754_zero s => if s then "-0" else "0"
  | S754_infinity s => if s then "-inf" else "inf"
  | S754_nan => "nan"
  | S754_finite s m e =>
      (if s then "-" else "") +:+
      (if (0 <=? e)%Z then fmt_g 6 (Z.pos m * 2 ^ e) 1 else fmt_g 6 (Z.pos m) (2 ^ (- e)))
  end.

Definition put_float (x : spec_float) : item := Str (show_float x).

(** Lines 162-166: the three vectors are built from their lists of [double]
    literals, narrowed to [float], and [(f * g) + f] is inserted into
    [std::cout]. [raw_f], [raw_g] and [raw_h] are what the cells of the
    three objects hold before. *)
Definition main_floats (raw_f raw_g raw_h : list spec_float) : M unit :=
  let c01 := float_of_double (double_literal 1 10) in
  let c02 := float_of_double (double_literal 2 10) in
  let c03 := float_of_double (double_literal 3 10) in
  let c05 := float_of_double (double_literal 5 10) in
  f ← lift (Vec_of_list 3 raw_f [c01; c02; c03]);
  g ← lift (Vec_of_list 3 raw_g [c01; c02; c03]);
  h ← lift (Vec_of_list 4 raw_h [c01; c02; c03; c05]);
  main_line_166 float_zero float_add float_mul put_float f g.

(** ** [main], lines 178-251 *)

Section Main.
Context (junk : addr → Z).

(** Lines 179-190: the two collections. *)
Definition main_collections : M (list unique_ptr * list (option addr)) :=
  let vua : list unique_ptr := [] in
  u ← make_unique_B junk 3; let vua := vua ++ [u] in
  u ← make_unique_B junk 4; let vua := vua ++ [u] in
  u ← make_unique_C junk 5; let vua := vua ++ [u] in
  u ← make_unique_C junk 6; let vua := vua ++ [u] in
  p0 ← new_B junk 1;
  p1 ← new_B junk 2;
  p2 ← new_C junk 7;
  p3 ← new_C junk 8;
  let vpa := [p0; p1; p2; p3] in
  mret (vua, vpa).

(** Lines 192-198. *)
Definition main_first_pass (vua : list unique_ptr) (vpa : list (option addr)) : M unit :=
  for_each vua (fun ap => a ← deref ap; foo a);;
  for_each vpa (fun ap => a ← deref ap; foo a).

(** Line 201: [takes_ownership(std::move(vua[1]))]. *)
Definition main_hand_off (vua : list unique_ptr) : M (list unique_ptr) :=
  u ← lift (subscript vua 1);
  let '(u_ptr, moved_from) := unique_ptr_move u in
  vua ← lift (assign vua 1 moved_from);
  takes_ownership u_ptr;;
  mret vua.

(** Line 204: [shared_ownership(std::shared_ptr<A>(vua[2].release()))].
    The argument is a temporary, so it is the parameter itself (or is moved
    into it): no copy is made and the count does not change. *)
Definition main_share (vua : list unique_ptr) : M (list unique_ptr) :=
  u ← lift (subscript vua 2);
  let '(raw, released) := unique_ptr_release u in
  vua ← lift (assign vua 2 released);
  s_ptr ← shared_ptr_of_raw raw;
  shared_ownership s_ptr;;
  mret vua.

(** Lines 206-212: the body of the loop, and the loop. *)
Definition report_slot (ap : unique_ptr) : M unit :=
  match ap with
  | None => put (Str (line "The ownership has moved away!"))
  | Some a => foo a
  end.

Definition main_second_pass (vua : list unique_ptr) : M unit :=
  for_each vua report_slot.

(** Lines 217-246: the gallery and the collection pass. *)
Definition main_locals : locals := {| greet := "Hello, "; secret := 42 |}.

Definition main_fv : list fn :=
  let foo := lambda_foo in
  let bar := lambda_bar (secret main_locals) in
  let baz := mk_Adder "Bye, " in
  let fv : list fn := [] in
  let fv := fv ++ [foo] in
  let fv := fv ++ [bar] in
  let fv := fv ++ [fn_of_Adder baz] in
  fv.

Fixpoint collect (env : locals) (john : string) (fv : list fn) (sv : list string)
    : M (list string) :=
  match fv with
  | [] => mret sv
  | f :: rest =>
      let sv := sv ++ [f env john] in
      put (Str (line "a"));;
      collect env john rest sv
  end.

Definition main_gallery : M (list string) :=
  let john := "John Doe" in
  collect main_locals john main_fv [].

(** Lines 248-250. *)
Definition main_print (sv : list string) : M unit :=
  for_each sv (fun s => put (Str s);; put (Chr nl)).

(** The end of [main]: the locals are destroyed. [vpa] holds raw pointers,
    whose destruction does nothing; the vector [vua] destroys its handles. *)
Definition main_exit (vua : list unique_ptr) (vpa : list (option addr)) : M unit :=
  for_each vua unique_ptr_dtor.

Definition main_tail : M unit :=
  '(vua, vpa) ← main_collections;
  main_first_pass vua vpa;;
  vua ← main_hand_off vua;
  vua ← main_share vua;
  main_second_pass vua;;
  sv ← main_gallery;
  main_print sv;;
  main_exit vua vpa.

(** The world when line 178 is reached: [out0] is what lines 142-176 have
    printed, and no object of the hierarchy exists yet. *)
Definition line_178 (out0 : list item) : world :=
  {| cout := out0; heap := ∅; ctrl := ∅; brk := 0%nat; next_ctrl := 0%nat |}.

(** The collection [vua] and the world when line 204 is reached. *)
Definition at_share (out0 : list item) : world * res (list unique_ptr) :=
  ('(vua, vpa) ← main_collections;
   main_first_pass vua vpa;;
   main_hand_off vua) (line_178 out0).

(** The collection [vua] and the world when line 206 is reached. *)
Definition at_second_pass (out0 : list item) : world * res (list unique_ptr) :=
  ('(vua, vpa) ← main_collections;
   main_first_pass vua vpa;;
   vua ← main_hand_off vua;
   main_share vua) (line_178 out0).
End Main.

(** ** Observations *)

(** What a computation inserted into [std::cout]. *)
Definition emitted {A : Type} (m : M A) (w : world) : list item :=
  drop (length (cout w)) (cout (fst (m w))).

(** The numbers among the inserted values, in order. *)
Definition numbers (o : list item) : list Z :=
  omap (fun i => match i with Num n => Some n | _ => None end) o.

(** The characters the stream receives; [fmt_ptr] is the implementation's
    format of a pointer. *)
Definition item_text (fmt_ptr : addr → string) (i : item) : string :=
  match i with
  | Chr c => String c EmptyString
  | Str s => s
  | Num n => show_int n
  | Ptr p => fmt_ptr p
  end.

Definition text (fmt_ptr : addr → string) (o : list item) : string :=
  foldr (fun i acc => item_text fmt_ptr i +:+ acc) EmptyString o.

(** A comma-separated listing between brackets. *)
Fixpoint listing (elems : list string) : string :=
  match elems with
  | [] => ""
  | [e] => e
  | e :: rest => e +:+ ", " +:+ listing rest
  end.

Definition bracketed (elems : list string) : string :=
  "[" +:+ listing elems +:+ "]".

(** The exception with which the body of a [try] block ends, if any. *)
Definition raised {A : Type} (m : M A) (w : world) : option exn :=
  match snd (m w) with
  | Exc e => Some e
  | _ => None
  end.

(** The validator's three outcomes on a token. *)
Definition echoed (s : string) (w : world) : Prop :=
  raised (validator_try s) w = None ∧
  emitted (validator s) w = [Str s; Chr nl].

Definition reported (c : exn_class) (msg : string) (s : string) (w : world) : Prop :=
  raised (validator_try s) w = Some (mk_exn c msg) ∧
  emitted (validator s) w = [Str msg; Chr nl].

(** The values [operator<<] of [Vec] inserts for the cells [cells]: each but
    the last is followed by a comma and a space. *)
Fixpoint separated (cells : list item) : list item :=
  match cells with
  | [] => []
  | [c] => [c]
  | c :: rest => c :: Str ", " :: separated rest
  end.

(** The counts that line 204 prints, in order. *)
Definition share_counts (junk : addr → Z) (out0 : list item) : list Z :=
  match at_share junk out0 with
  | (w, Val vua) => numbers (emitted (main_share vua) w)
  | _ => []
  end.

(** What the loop of lines 206-212 prints, one value per slot. *)
Definition second_pass_output (junk : addr → Z) (out0 : list item) : list item :=
  match at_second_pass junk out0 with
  | (w, Val vua) => emitted (main_second_pass vua) w
  | _ => []
  end.

Definition moved_away : item := Str (line "The ownership has moved away!").

Definition invokes_action (i : item) : Prop :=
  i = Str (line "B.foo()") ∨ i = Str (line "C.foo()").

(** The messages of the three destructors among the inserted values. *)
Definition dtor_messages (o : list item) : list item :=
  filter (λ i, i ∈ [Str (line "~A()"); Str (line "~B()"); Str (line "~C()")]) o.

(** The size-mismatch error of the arithmetic operators. *)
Definition size_mismatch : exn := mk_exn invalid_argument "Vector size mismatch!".

(** The error of the list constructor. *)
Definition wrong_arity : exn := mk_exn invalid_argument "Wrong number of arguments!".

(** ** Further parts of the program *)

(** Lines 142-157 as a whole: the token is extracted from the input and
    validated. *)
Definition main_validate (input : string) : M unit :=
  let s := cin_extract input in
  validator s.

(** Whether a string is free of white space, and whether it is nothing else. *)
Fixpoint no_space (s : string) : bool :=
  match s with
  | EmptyString => true
  | String c rest => negb (is_space c) && no_space rest
  end.

Fixpoint all_space (s : string) : bool :=
  match s with
  | EmptyString => true
  | String c rest => is_space c && all_space rest
  end.

(** [const T& operator[](size_t idx) const { return data[idx]; }] (line 37):
    reading through the reference. *)
Definition Vec_at {T : Type} (v : Vec T) (idx : nat) : res T :=
  subscript (data v) idx.

(** [T& operator[](size_t idx) { return data[idx]; }] (line 36) used on the
    left of an assignment, [v[idx] = x]. *)
Definition Vec_set {T : Type} (v : Vec T) (idx : nat) (x : T) : res (Vec T) :=
  d ← assign (data v) idx x;
  Val (mk_Vec d).

(** What [foo] prints for an object, by its dynamic type. *)
Definition action (o : object) : item :=
  match o with
  | objB _ => Str (line "B.foo()")
  | objC _ => Str (line "C.foo()")
  end.

(** What the loop body of lines 206-212 prints for a slot, given the live
    objects. *)
Definition slot_item (h : gmap addr object) (ap : unique_ptr) : option item :=
  match ap with
  | None => Some moved_away
  | Some a => action <$> h !! a
  end.

(** * Properties *)

(** ** Output bookkeeping *)

Lemma set_cout_app (a b : list item) (w : world) :
  set_cout (.++ b) (set_cout (.++ a) w) = set_cout (.++ (a ++ b)) w.
Proof. destruct w; unfold set_cout; simpl. by rewrite <- (assoc_L (++)). Qed.

Lemma set_cout_nil (w : world) : set_cout (.++ []) w = w.
Proof. destruct w; unfold set_cout; simpl. by rewrite (right_id_L [] (++)). Qed.

Lemma emitted_set_cout {A : Type} (m : M A) (w : world) (o : list item) (r : res A) :
  m w = (set_cout (.++ o) w, r) → emitted m w = o.
Proof.
  intros E. unfold emitted. rewrite E. simpl.
  by rewrite drop_app_length.
Qed.

Lemma put_put (i j : item) (w : world) :
  (put i;; put j) w = (set_cout (.++ [i; j]) w, Val tt).
Proof. unfold mbind, M_bind, put. by rewrite set_cout_app. Qed.

(** ** 1. The validator *)

Lemma validator_try_long (s : string) (w : world) :
  (10 < String.length s)%nat →
  validator_try s w = (w, Exc (mk_exn out_of_range "Out of range")).
Proof.
  intros H. unfold validator_try.
  by destruct (Nat.ltb_spec 10 (String.length s)); [|lia].
Qed.

Lemma validator_try_short (s : string) (w : world) :
  (String.length s < 5)%nat →
  validator_try s w = (w, Exc (mk_exn invalid_argument "invalid argument")).
Proof.
  intros H. unfold validator_try.
  destruct (Nat.ltb_spec 10 (String.length s)); [lia|].
  by destruct (Nat.ltb_spec (String.length s) 5); [|lia].
Qed.

Lemma validator_try_fits (s : string) (w : world) :
  (5 ≤ String.length s ≤ 10)%nat →
  validator_try s w = (set_cout (.++ [Str s; Chr nl]) w, Val tt).
Proof.
  intros H. unfold validator_try.
  destruct (Nat.ltb_spec 10 (String.length s)); [lia|].
  destruct (Nat.ltb_spec (String.length s) 5); [lia|].
  apply put_put.
Qed.

Lemma validator_long (s : string) (w : world) :
  (10 < String.length s)%nat → reported out_of_range "Out of range" s w.
Proof.
  intros H. split.
  - unfold raised. by rewrite validator_try_long.
  - apply emitted_set_cout with (r := Val tt).
    unfold validator, try_catch. rewrite validator_try_long by done.
    simpl. apply put_put.
Qed.

Lemma validator_short (s : string) (w : world) :
  (String.length s < 5)%nat → reported invalid_argument "invalid argument" s w.
Proof.
  intros H. split.
  - unfold raised. by rewrite validator_try_short.
  - apply emitted_set_cout with (r := Val tt).
    unfold validator, try_catch. rewrite validator_try_short by done.
    simpl. apply put_put.
Qed.

Lemma validator_fits (s : string) (w : world) :
  (5 ≤ String.length s ≤ 10)%nat → echoed s w.
Proof.
  intros H. split.
  - unfold raised. by rewrite validator_try_fits.
  - apply emitted_set_cout with (r := Val tt).
    unfold validator, try_catch. by rewrite validator_try_fits.
Qed.

Lemma validator_returns (s : string) (w : world) : snd (validator s w) = Val tt.
Proof.
  unfold validator, try_catch.
  destruct (Nat.le_gt_cases (String.length s) 10) as [Hle|Hgt].
  - destruct (Nat.le_gt_cases 5 (String.length s)) as [Hge|Hlt].
    + by rewrite validator_try_fits.
    + by rewrite validator_try_short.
  - by rewrite validator_try_long.
Qed.

(** The outcomes exclude one another: they differ in how the [try] block
    ended. *)
Lemma outcomes_exclusive (s : string) (w : world) :
  ¬ (echoed s w ∧ reported out_of_range "Out of range" s w) ∧
  ¬ (echoed s w ∧ reported invalid_argument "invalid argument" s w) ∧
  ¬ (reported out_of_range "Out of range" s w ∧
     reported invalid_argument "invalid argument" s w).
Proof.
  unfold echoed, reported. repeat split; intros [[E1 _] [E2 _]]; congruence.
Qed.

Lemma cin_extract_absent : cin_extract "" = "".
Proof. reflexivity. Qed.

(** C6. Whatever token the validator is given and whatever was printed
    before: no exception leaves it; a token of 5 to 10 characters is printed
    unchanged (followed by the newline) and the [try] block raises nothing; a
    longer token makes it print the line "Out of range" and nothing else; a
    shorter one, among them the empty token that absent input leaves, makes it
    print the line "invalid argument" and nothing else; and exactly one of the
    three outcomes occurs. *)
Theorem validator_classifies (s : string) (w : world) :
  snd (validator s w) = Val tt ∧
  ((5 ≤ String.length s ≤ 10)%nat ∧ echoed s w ∧
     ¬ reported out_of_range "Out of range" s w ∧
     ¬ reported invalid_argument "invalid argument" s w
   ∨ (10 < String.length s)%nat ∧ reported out_of_range "Out of range" s w ∧
     ¬ echoed s w ∧ ¬ reported invalid_argument "invalid argument" s w
   ∨ (String.length s < 5)%nat ∧ reported invalid_argument "invalid argument" s w ∧
     ¬ echoed s w ∧ ¬ reported out_of_range "Out of range" s w) ∧
  reported invalid_argument "invalid argument" (cin_extract "") w.
Proof.
  destruct (outcomes_exclusive s w) as (X1 & X2 & X3).
  split; [apply validator_returns|]. split.
  - destruct (Nat.le_gt_cases (String.length s) 10) as [Hle|Hgt].
    + destruct (Nat.le_gt_cases 5 (String.length s)) as [Hge|Hlt].
      * left. pose proof (validator_fits s w (conj Hge Hle)). naive_solver.
      * right; right. pose proof (validator_short s w Hlt). naive_solver.
    + right; left. pose proof (validator_long s w Hgt). naive_solver.
  - rewrite cin_extract_absent. apply validator_short. simpl. lia.
Qed.

(** ** 2. The vector template *)

Section CopyFacts.
Context {T : Type}.
Implicit Types src dst raw il : list T.

(** [std::copy] overwrites the [length src] cells from [k] on. *)
Lemma std_copy_window src : ∀ dst k,
  (k + length src ≤ length dst)%nat →
  std_copy src dst k = Val (take k dst ++ src ++ drop (k + length src) dst).
Proof.
  induction src as [|x src IH]; intros dst k Hlen; simpl in *.
  - by rewrite Nat.add_0_r, take_drop.
  - unfold assign. destruct (decide (k < length dst)%nat) as [Hk|]; [|lia].
    simpl. rewrite IH by (rewrite length_insert; lia).
    f_equal.
    rewrite take_S_r with (x := x) by (apply list_lookup_insert_eq; lia).
    rewrite take_insert_ge by lia.
    rewrite drop_insert_lt by lia.
    rewrite <- (assoc_L (++)). simpl.
    by rewrite Nat.add_succ_r.
Qed.

Lemma std_copy_whole src raw :
  length src = length raw → std_copy src raw 0 = Val src.
Proof.
  intros H. rewrite std_copy_window by (simpl; lia).
  simpl. rewrite drop_ge by lia. by rewrite (right_id_L [] (++)).
Qed.

Lemma Vec_of_list_fits N raw il :
  length raw = N → length il = N → Vec_of_list N raw il = Val (mk_Vec il).
Proof.
  intros Hraw Hil. unfold Vec_of_list.
  destruct (Nat.eqb_spec (length il) N) as [_|]; [|done]. simpl.
  rewrite std_copy_whole by congruence. done.
Qed.

Lemma Vec_of_list_misfit N raw il :
  length il ≠ N → Vec_of_list N raw il = Exc wrong_arity.
Proof.
  intros Hil. unfold Vec_of_list.
  by destruct (Nat.eqb_spec (length il) N).
Qed.
(** Copying a vector of [N] cells gives the same cells, so returning a
    vector by value does not change it. *)
Lemma Vec_copy_same N raw (v : Vec T) :
  length raw = N → has_size N v → Vec_copy N raw v = Val v.
Proof.
  intros Hraw Hv. unfold Vec_copy, has_size in *.
  rewrite take_ge by lia. rewrite std_copy_whole by congruence.
  by destruct v.
Qed.
End CopyFacts.

(** C5. For a vector type of [N] cells, whatever the cells held before, the
    constructor from an initializer list throws iff the list's length differs
    from [N], and then it throws the invalid-argument error with the message
    "Wrong number of arguments!"; when the length is [N] the constructed
    vector holds exactly the listed elements in order. *)
Theorem Vec_of_list_spec {T : Type} (N : nat) (raw il : list T) :
  length raw = N →
  (Vec_of_list N raw il = Exc wrong_arity ↔ length il ≠ N) ∧
  ((∃ e, Vec_of_list N raw il = Exc e) ↔ length il ≠ N) ∧
  (Vec_of_list N raw il = Val (mk_Vec il) ↔ length il = N) ∧
  what wrong_arity = "Wrong number of arguments!".
Proof.
  intros Hraw.
  destruct (decide (length il = N)) as [Heq|Hne].
  - rewrite (Vec_of_list_fits N raw il Hraw Heq).
    repeat split; try done. by intros [e ?].
  - rewrite (Vec_of_list_misfit N raw il Hne).
    repeat split; try done. by exists wrong_arity.
Qed.

Lemma Vec_of_list_spec_witness :
  length [0; 0; 0] = 3%nat ∧
  (Vec_of_list 3 [0; 0; 0] [1; 2; 3] = Exc wrong_arity ↔ length [1; 2; 3] ≠ 3%nat) ∧
  ((∃ e, Vec_of_list 3 [0; 0; 0] [1; 2; 3] = Exc e) ↔ length [1; 2; 3] ≠ 3%nat) ∧
  (Vec_of_list 3 [0; 0; 0] [1; 2; 3] = Val (mk_Vec [1; 2; 3]) ↔ length [1; 2; 3] = 3%nat) ∧
  what wrong_arity = "Wrong number of arguments!".
Proof.
  split; [reflexivity|].
  apply (Vec_of_list_spec 3 [0; 0; 0] [1; 2; 3]). reflexivity.
Defined.

(** A list of four values for three cells. *)
Example Vec_of_list_4_for_3 (raw : list Z) :
  Vec_of_list 3 raw [1; 2; 3; 4] = Exc wrong_arity.
Proof. reflexivity. Qed.

Lemma res_bind_never {A B : Type} (m : res A) (f : A → res B) (b : B) :
  (∀ a, f a ≠ Val b) → m ≫= f ≠ Val b.
Proof. intros Hf. destruct m as [a| |]; [apply Hf|done|done]. Qed.

Lemma int_incr_small (i : nat) : (Z.of_nat i < INT_MAX)%Z → int_incr i = Val (S i).
Proof. intros H. unfold int_incr. by destruct (decide _). Qed.

Lemma int_incr_max (i : nat) : (INT_MAX ≤ Z.of_nat i)%Z → int_incr i = Undef.
Proof. intros H. unfold int_incr. destruct (decide _); [lia|done]. Qed.

Section ArithFacts.
Context {T U : Type} (zero : U) (op : T → U → U).
Implicit Types (a : list T) (b r : list U).

(** After [k] rounds the first [k] cells hold the element-wise results and
    the others are untouched, as long as the counter can reach [k]. *)
Lemma loop_prefix a b r (k : nat) :
  (k ≤ length a)%nat → (k ≤ length b)%nat → (k ≤ length r)%nat →
  (Z.of_nat k ≤ INT_MAX)%Z →
  for_range k (fun i result =>
    x ← subscript a i;
    y ← subscript b i;
    assign result i (op x y)) r = Val (zip_with op (take k a) (take k b) ++ drop k r).
Proof.
  intros Ha Hb Hr Hk. unfold for_range.
  induction k as [|k IH].
  - simpl. by rewrite drop_0.
  - rewrite seq_S, foldl_app. simpl. rewrite IH by lia. simpl.
    destruct (lookup_lt_is_Some_2 a k) as [x Hx]; [lia|].
    destruct (lookup_lt_is_Some_2 b k) as [y Hy]; [lia|].
    destruct (lookup_lt_is_Some_2 r k) as [z Hz]; [lia|].
    unfold subscript. rewrite Hx, Hy. simpl.
    assert (Hlen : length (zip_with op (take k a) (take k b)) = k).
    { rewrite length_zip_with, !length_take. lia. }
    unfold assign.
    destruct (decide _) as [_|Hout];
      [|exfalso; apply Hout; rewrite length_app, Hlen, length_drop; lia].
    simpl. rewrite int_incr_small by lia. simpl.
    f_equal.
    rewrite (take_S_r a k x Hx), (take_S_r b k y Hy).
    rewrite zip_with_app by (rewrite !length_take; lia).
    rewrite (drop_S r z k Hz).
    rewrite insert_app_r_alt by lia.
    rewrite Hlen, Nat.sub_diag. simpl.
    by rewrite <- (assoc_L (++)).
Qed.

Lemma loop_whole a b (n : nat) :
  length a = n → length b = n → (Z.of_nat n ≤ INT_MAX)%Z →
  for_range n (fun i result =>
    x ← subscript a i;
    y ← subscript b i;
    assign result i (op x y)) (replicate n zero) = Val (zip_with op a b).
Proof.
  intros Ha Hb Hn.
  rewrite loop_prefix by (rewrite ?length_replicate; lia).
  rewrite drop_ge by (rewrite length_replicate; lia).
  rewrite !take_ge by lia. by rewrite (right_id_L [] (++)).
Qed.

(** The loop throws nothing: it ends with a value or is undefined. *)
Lemma loop_throws_nothing a b r (n : nat) (e : exn) :
  for_range n (fun i result =>
    x ← subscript a i;
    y ← subscript b i;
    assign result i (op x y)) r ≠ Exc e.
Proof.
  unfold for_range. generalize (seq 0 n) as l.
  assert (H : ∀ (l : list nat) (acc : res (list U)), acc ≠ Exc e →
    foldl (fun acc i => acc ≫= λ s,
             (x ← subscript a i; y ← subscript b i; assign s i (op x y))
             ≫= λ s', int_incr i ≫= λ _, Val s') acc l ≠ Exc e).
  { induction l as [|i l IH]; intros acc Hacc; [done|].
    simpl. apply IH. destruct acc as [s| |]; simpl; [|done|done].
    unfold subscript, assign, int_incr.
    destruct (a !! i); simpl; [|done].
    destruct (b !! i); simpl; [|done].
    destruct (decide (i < length s)%nat); simpl; [|done].
    by destruct (decide (Z.of_nat i < INT_MAX)%Z). }
  intros l. by apply H.
Qed.

(** Beyond [INT_MAX] the counter overflows before the loop is done: the loop
    ends with no value. *)
Lemma loop_overflows a b r (n : nat) (v : list U) :
  (INT_MAX < Z.of_nat n)%Z →
  for_range n (fun i result =>
    x ← subscript a i;
    y ← subscript b i;
    assign result i (op x y)) r ≠ Val v.
Proof.
  intros Hn. unfold for_range.
  set (step := fun (acc : res (list U)) (i : nat) => acc ≫= λ s,
         (x ← subscript a i; y ← subscript b i; assign s i (op x y))
         ≫= λ s', int_incr i ≫= λ _, Val s').
  assert (Hstuck : ∀ (l : list nat) (acc : res (list U)),
            (∀ v', acc ≠ Val v') → ∀ v', foldl step acc l ≠ Val v').
  { induction l as [|i l IH]; intros acc Hacc v'; [apply Hacc|].
    simpl. apply IH. intros v''. subst step. simpl.
    destruct acc as [s| |]; [by destruct (Hacc s)|done|done]. }
  pose proof (eq_refl : INT_MAX = 2147483647%Z) as Hmax.
  remember (Z.to_nat INT_MAX) as k eqn:Hk.
  replace n with (k + S (n - S k))%nat by lia.
  rewrite seq_app, foldl_app. simpl.
  apply Hstuck. intros v'. subst step. cbv beta.
  apply res_bind_never. intros s. apply res_bind_never. intros s'.
  by rewrite int_incr_max by lia.
Qed.
End ArithFacts.

Section VecArithFacts.
Context {T U : Type} (zero : U) (add mul : T → U → U).

Lemma Vec_plus_same (N : nat) (a : Vec T) (b : Vec U) :
  has_size N a → has_size N b → (Z.of_nat N ≤ INT_MAX)%Z →
  Vec_plus zero add N N a b = Val (mk_Vec (zip_with add (data a) (data b))).
Proof.
  intros Ha Hb HN. unfold Vec_plus. rewrite Nat.eqb_refl. simpl.
  by rewrite (loop_whole zero add (data a) (data b) N Ha Hb HN).
Qed.

Lemma Vec_times_same (N : nat) (a : Vec T) (b : Vec U) :
  has_size N a → has_size N b → (Z.of_nat N ≤ INT_MAX)%Z →
  Vec_times zero mul N N a b = Val (mk_Vec (zip_with mul (data a) (data b))).
Proof.
  intros Ha Hb HN. unfold Vec_times. rewrite Nat.eqb_refl. simpl.
  by rewrite (loop_whole zero mul (data a) (data b) N Ha Hb HN).
Qed.

Lemma Vec_plus_mismatch (N M : nat) (a : Vec T) (b : Vec U) :
  N ≠ M → Vec_plus zero add N M a b = Exc size_mismatch.
Proof. intros H. unfold Vec_plus. by destruct (Nat.eqb_spec N M). Qed.

Lemma Vec_times_mismatch (N M : nat) (a : Vec T) (b : Vec U) :
  N ≠ M → Vec_times zero mul N M a b = Exc size_mismatch.
Proof. intros H. unfold Vec_times. by destruct (Nat.eqb_spec N M). Qed.

(** With equal sizes neither operator throws, whatever the size. *)
Lemma Vec_plus_same_no_throw (N : nat) (a : Vec T) (b : Vec U) (e : exn) :
  Vec_plus zero add N N a b ≠ Exc e.
Proof.
  unfold Vec_plus. rewrite Nat.eqb_refl. simpl.
  pose proof (loop_throws_nothing add (data a) (data b) (replicate N zero) N e) as H.
  destruct (for_range _ _ _) as [d|e'|]; intros E; [discriminate E| |discriminate E].
  injection E as ->. by apply H.
Qed.

Lemma Vec_times_same_no_throw (N : nat) (a : Vec T) (b : Vec U) (e : exn) :
  Vec_times zero mul N N a b ≠ Exc e.
Proof.
  unfold Vec_times. rewrite Nat.eqb_refl. simpl.
  pose proof (loop_throws_nothing mul (data a) (data b) (replicate N zero) N e) as H.
  destruct (for_range _ _ _) as [d|e'|]; intros E; [discriminate E| |discriminate E].
  injection E as ->. by apply H.
Qed.

(** With equal sizes above [INT_MAX] neither operator returns a vector: the
    [int] counter overflows. *)
Lemma Vec_plus_overflows (N : nat) (a : Vec T) (b : Vec U) (r : Vec U) :
  (INT_MAX < Z.of_nat N)%Z → Vec_plus zero add N N a b ≠ Val r.
Proof.
  intros HN. unfold Vec_plus. rewrite Nat.eqb_refl. simpl.
  pose proof (loop_overflows add (data a) (data b) (replicate N zero) N) as H.
  destruct (for_range _ _ _) as [d|e'|]; intros E; [|discriminate E..].
  by destruct (H d HN).
Qed.

Lemma Vec_times_overflows (N : nat) (a : Vec T) (b : Vec U) (r : Vec U) :
  (INT_MAX < Z.of_nat N)%Z → Vec_times zero mul N N a b ≠ Val r.
Proof.
  intros HN. unfold Vec_times. rewrite Nat.eqb_refl. simpl.
  pose proof (loop_overflows mul (data a) (data b) (replicate N zero) N) as H.
  destruct (for_range _ _ _) as [d|e'|]; intros E; [|discriminate E..].
  by destruct (H d HN).
Qed.
End VecArithFacts.

(** C4. For every vector [a] of [N] cells and [b] of [M] cells, [operator+]
    and [operator*] throw iff [N ≠ M], and what they throw is the
    invalid-argument error with the message "Vector size mismatch!", so no
    result vector is produced; when [N = M], a size that the [int] counter of
    the loop can reach, both return a vector of [M] cells whose cell [i] is
    [a[i] + b[i]], respectively [a[i] * b[i]], for every index [i]: the
    product is element-wise, not a scalar. *)
Theorem Vec_arith_spec {T U : Type} (zero : U) (add mul : T → U → U)
    (N M : nat) (a : Vec T) (b : Vec U) :
  has_size N a → has_size M b →
  (Vec_plus zero add N M a b = Exc size_mismatch ↔ N ≠ M) ∧
  (Vec_times zero mul N M a b = Exc size_mismatch ↔ N ≠ M) ∧
  ((∃ e, Vec_plus zero add N M a b = Exc e) ↔ N ≠ M) ∧
  ((∃ e, Vec_times zero mul N M a b = Exc e) ↔ N ≠ M) ∧
  what size_mismatch = "Vector size mismatch!" ∧
  (N = M → (Z.of_nat M ≤ INT_MAX)%Z →
   ∃ r s, Vec_plus zero add N M a b = Val r ∧
          Vec_times zero mul N M a b = Val s ∧
          has_size M r ∧ has_size M s ∧
          ∀ i, (i < M)%nat →
            ∃ x y, data a !! i = Some x ∧ data b !! i = Some y ∧
                   data r !! i = Some (add x y) ∧
                   data s !! i = Some (mul x y)).
Proof.
  intros Ha Hb.
  destruct (decide (N = M)) as [<-|Hne].
  - pose proof (Vec_plus_same_no_throw zero add N a b) as Hp.
    pose proof (Vec_times_same_no_throw zero mul N a b) as Ht.
    split; [split; [by intros ?%Hp|done]|].
    split; [split; [by intros ?%Ht|done]|].
    split; [split; [by intros [e ?%Hp]|done]|].
    split; [split; [by intros [e ?%Ht]|done]|].
    split; [done|]. intros _ HN.
    rewrite (Vec_plus_same zero add N a b Ha Hb HN).
    rewrite (Vec_times_same zero mul N a b Ha Hb HN).
    eexists _, _. repeat split.
    + unfold has_size in *. simpl. rewrite length_zip_with. lia.
    + unfold has_size in *. simpl. rewrite length_zip_with. lia.
    + intros i Hi. unfold has_size in *.
      destruct (lookup_lt_is_Some_2 (data a) i) as [x Hx]; [lia|].
      destruct (lookup_lt_is_Some_2 (data b) i) as [y Hy]; [lia|].
      exists x, y. simpl. rewrite !lookup_zip_with, Hx, Hy. done.
  - rewrite (Vec_plus_mismatch zero add N M a b Hne).
    rewrite (Vec_times_mismatch zero mul N M a b Hne).
    repeat split; try done; by exists size_mismatch.
Qed.

Lemma Vec_arith_spec_witness :
  has_size 3 (mk_Vec [1; 2; 3]) ∧ has_size 3 (mk_Vec [10; 20; 30]) ∧
  (Z.of_nat 3 ≤ INT_MAX)%Z ∧
  ∃ r s, Vec_plus 0 Z.add 3 3 (mk_Vec [1; 2; 3]) (mk_Vec [10; 20; 30]) = Val r ∧
         Vec_times 0 Z.mul 3 3 (mk_Vec [1; 2; 3]) (mk_Vec [10; 20; 30]) = Val s ∧
         has_size 3 r ∧ has_size 3 s ∧
         ∀ i, (i < 3)%nat →
           ∃ x y, [1; 2; 3] !! i = Some x ∧ [10; 20; 30] !! i = Some y ∧
                  data r !! i = Some (x + y) ∧ data s !! i = Some (x * y).
Proof.
  split; [reflexivity|]. split; [reflexivity|].
  split; [unfold INT_MAX; lia|].
  apply (Vec_arith_spec 0 Z.add Z.mul 3 3 (mk_Vec [1; 2; 3]) (mk_Vec [10; 20; 30]));
    [reflexivity | reflexivity | reflexivity | unfold INT_MAX; lia].
Defined.

(** The scenario of lines 168-176 with three and four cells. *)
Example Vec_plus_3_4 :
  Vec_plus 0 Z.add 3 4 (mk_Vec [1; 2; 3]) (mk_Vec [1; 2; 3; 5]) = Exc size_mismatch.
Proof. reflexivity. Qed.

(** X10. Lines 168-176, for any two vectors and any element type: the sum
    of the 3-cell and the 4-cell vector throws, the handler prints the
    message of the size error followed by a newline and execution goes on
    normally; the insertion of [m] is never reached. *)
Lemma main_mismatch_run {F : Type} (zero : F) (fadd : F → F → F) (show : F → item)
    (g h : Vec F) (w : world) :
  main_mismatch zero fadd show g h w
  = (set_cout (.++ [Str "Vector size mismatch!"; Chr nl]) w, Val tt).
Proof.
  unfold main_mismatch, try_catch.
  unfold mbind at 1, M_bind at 1, lift at 1.
  rewrite Vec_plus_mismatch by lia. simpl. apply put_put.
Qed.

(** ** Rendering a vector *)

Section PrintFacts.
Context {T : Type} (show : T → item).

Lemma for_each_cells (cells suffix : list T) : ∀ (pre : list T) (w : world),
  (Z.of_nat (length pre + length cells) ≤ INT_MAX)%Z →
  for_each (seq (length pre) (length cells)) (fun i =>
    x ← lift (subscript (pre ++ cells ++ suffix) i);
    put (show x);; put (Str ", ");;
    lift (int_incr i);; mret tt) w
  = (set_cout (.++ flat_map (fun x => [show x; Str ", "]) cells) w, Val tt).
Proof.
  induction cells as [|c cells IH]; intros pre w Hmax.
  - simpl. by rewrite set_cout_nil.
  - cbn [length seq for_each].
    unfold mbind at 1, M_bind at 1.
    unfold mbind at 1, M_bind at 1, lift at 1, subscript at 1.
    rewrite lookup_app_r, Nat.sub_diag by lia. cbn [lookup list_lookup app].
    unfold mbind at 1, M_bind at 1, put at 1.
    unfold mbind at 1, M_bind at 1, put at 1.
    unfold mbind at 1, M_bind at 1, lift at 1.
    rewrite int_incr_small by (simpl in Hmax; lia).
    unfold mret at 1, M_ret at 1.
    rewrite set_cout_app. cbn [app].
    specialize (IH (pre ++ [c]) (set_cout (.++ [show c; Str ", "]) w)).
    rewrite length_app in IH. cbn [length] in IH.
    rewrite Nat.add_1_r, <- (assoc_L (++)) in IH. cbn [app] in IH.
    rewrite IH by (simpl in Hmax; lia). by rewrite set_cout_app.
Qed.

(** What [operator<<] inserts for a vector with at least one cell whose
    count the [int] counter can reach, and how it ends. *)
Lemma Vec_shl_run (N : nat) (os : ostream) (front : list T) (back : T) (w : world) :
  length front = (N - 1)%nat → (1 ≤ N)%nat → (Z.of_nat N - 1 ≤ INT_MAX)%Z →
  Vec_shl show N os (mk_Vec (front ++ [back])) w =
    (set_cout (.++ Chr "[" :: flat_map (fun x => [show x; Str ", "]) front
                   ++ [show back; Chr "]"]) w, Undef).
Proof.
  intros Hlen HN Hfit. unfold Vec_shl.
  pose proof (eq_refl : INT_MAX = 2147483647%Z) as Hmax.
  assert (Hsub : size_t_sub N 1 = length front).
  { unfold size_t_sub. rewrite Z.mod_small; [lia|].
    change (2 ^ size_t_bits)%Z with 18446744073709551616%Z. lia. }
  rewrite Hsub. simpl data.
  unfold mbind at 1, M_bind at 1. unfold put at 1.
  unfold mbind at 1, M_bind at 1.
  pose proof (for_each_cells front [back] [] (set_cout (.++ [Chr "["]) w)) as E.
  cbn [length app Nat.add] in E. rewrite E by lia. clear E.
  unfold mbind at 1, M_bind at 1, lift at 1, subscript at 1.
  rewrite lookup_app_r, Nat.sub_diag by lia. simpl.
  unfold mbind, M_bind, put, undefined, lift.
  rewrite !set_cout_app. simpl.
  by rewrite <- ?(assoc_L (++)).
Qed.

Lemma separated_snoc (front : list T) (back : T) :
  separated (map show (front ++ [back]))
  = flat_map (fun x => [show x; Str ", "]) front ++ [show back].
Proof.
  induction front as [|x front IH]; [done|].
  cbn [app map flat_map]. rewrite <- IH.
  by destruct front.
Qed.

(** For every vector of [N ≥ 1] cells, what [operator<<] inserts is the
    opening bracket, the cells in index order separated by ", ", and the
    closing bracket. *)
Lemma Vec_shl_listing (N : nat) (os : ostream) (v : Vec T) (w : world) :
  has_size N v → (1 ≤ N)%nat → (Z.of_nat N - 1 ≤ INT_MAX)%Z →
  Vec_shl show N os v w
  = (set_cout (.++ Chr "[" :: separated (map show (data v)) ++ [Chr "]"]) w, Undef).
Proof.
  destruct v as [cells]. unfold has_size. simpl. intros Hlen HN Hfit.
  destruct cells as [|back front _] using rev_ind; [simpl in Hlen; lia|].
  rewrite length_app in Hlen. simpl in Hlen.
  rewrite (Vec_shl_run N os front back w) by lia.
  by rewrite separated_snoc, <- (assoc_L (++)).
Qed.
End PrintFacts.

Lemma Vec_shl_listing_witness :
  Vec_shl Num 3 std_cout (mk_Vec [4; 5; 6]) empty_world
  = (set_cout (.++ [Chr "["; Num 4; Str ", "; Num 5; Str ", "; Num 6; Chr "]"])
       empty_world, Undef).
Proof.
  apply (Vec_shl_listing Num 3 std_cout (mk_Vec [4; 5; 6]) empty_world);
    [reflexivity | lia | unfold INT_MAX; lia].
Defined.

Lemma append_assoc (s t u : string) : (s +:+ t) +:+ u = s +:+ (t +:+ u).
Proof.
  induction s as [|c s IH]; [done|].
  change (String c ((s +:+ t) +:+ u) = String c (s +:+ (t +:+ u))).
  by rewrite IH.
Qed.

Lemma text_app (fmt_ptr : addr → string) (o1 o2 : list item) :
  text fmt_ptr (o1 ++ o2) = text fmt_ptr o1 +:+ text fmt_ptr o2.
Proof.
  unfold text. induction o1 as [|i o1 IH]; [done|].
  cbn [app foldr]. by rewrite IH, append_assoc.
Qed.

(** The characters of a rendered vector: the bracketed listing of its cells. *)
Lemma Vec_shl_text {T : Type} (show : T → item) (fmt_ptr : addr → string)
    (front : list T) (back : T) :
  text fmt_ptr (Chr "[" :: flat_map (fun x => [show x; Str ", "]) front
                  ++ [show back; Chr "]"])
  = bracketed (map (fun x => item_text fmt_ptr (show x)) (front ++ [back])).
Proof.
  unfold bracketed.
  change (Chr "[" :: ?l) with ([Chr "["] ++ l).
  rewrite text_app. f_equal.
  induction front as [|x front IH].
  - done.
  - change (flat_map ?f (x :: front)) with ([show x; Str ", "] ++ flat_map f front).
    rewrite <- (assoc_L (++)), text_app, IH.
    cbn [app map listing]. destruct (map _ (front ++ [back])) eqn:E.
    + by destruct front.
    + unfold text. cbn [foldr item_text]. by rewrite !append_assoc.
Qed.

Lemma bind_never {A B : Type} (m : M A) (f : A → M B) (w : world) (b : B) :
  (∀ a w', snd (f a w') ≠ Val b) → snd ((m ≫= f) w) ≠ Val b.
Proof.
  intros Hf. unfold mbind, M_bind.
  destruct (m w) as [w' [a| |]]; simpl; [apply Hf|done|done].
Qed.

Lemma bind_stuck {A B : Type} (m : M A) (f : A → M B) (w : world) (b : B) :
  (∀ a, snd (m w) ≠ Val a) → snd ((m ≫= f) w) ≠ Val b.
Proof.
  intros Hm. unfold mbind, M_bind.
  destruct (m w) as [w' [a| |]]; simpl; [by destruct (Hm a)|done|done].
Qed.

Lemma Vec_shl_never_returns {T : Type} (show : T → item) (N : nat)
    (os os' : ostream) (v : Vec T) (w : world) :
  snd (Vec_shl show N os v w) ≠ Val os'.
Proof.
  unfold Vec_shl. repeat (apply bind_never; intros). done.
Qed.

(** C8. [operator<<] of [Vec] writes the bracketed, comma-separated listing
    but hands no stream back. On the three cells 1, 2, 3 the characters
    written are "[1, 2, 3]" and then control leaves the function without a
    returned value; for no vector, size or stream does the call yield a
    stream that a further insertion could use, whereas [operator<<] of [A]
    yields the stream it was given. Line 166 of [main], which inserts a
    newline into the result, writes the listing of the three cells
    [f[i] * g[i] + f[i]] and is then undefined. *)
Theorem Vec_shl_yields_no_stream :
  (∀ fmt_ptr,
     text fmt_ptr (cout (fst (Vec_shl Num 3 std_cout (mk_Vec [1; 2; 3]) empty_world)))
     = "[1, 2, 3]") ∧
  snd (Vec_shl Num 3 std_cout (mk_Vec [1; 2; 3]) empty_world) = Undef ∧
  (∀ (T : Type) (show : T → item) (N : nat) (os os' : ostream) (v : Vec T) (w : world),
     snd (Vec_shl show N os v w) ≠ Val os') ∧
  (∀ (os : ostream) (a : addr) (w : world), snd (A_shl os a w) = Val os) ∧
  (∀ (F : Type) (zero : F) (fadd fmul : F → F → F) (show : F → item)
     (f0 f1 f2 g0 g1 g2 : F) (w : world),
     main_line_166 zero fadd fmul show (mk_Vec [f0; f1; f2]) (mk_Vec [g0; g1; g2]) w
     = (set_cout (.++ [Chr "["; show (fadd (fmul f0 g0) f0); Str ", ";
                       show (fadd (fmul f1 g1) f1); Str ", ";
                       show (fadd (fmul f2 g2) f2); Chr "]"]) w, Undef)).
Proof.
  split; [done|]. split; [done|].
  split; [intros; apply Vec_shl_never_returns|].
  split; [done|].
  intros F zero fadd fmul show f0 f1 f2 g0 g1 g2 w.
  unfold main_line_166.
  rewrite (Vec_times_same zero fmul 3 (mk_Vec [f0; f1; f2]) (mk_Vec [g0; g1; g2]))
    by done.
  unfold mbind at 1, M_bind at 1, lift at 1. simpl zip_with.
  rewrite (Vec_plus_same zero fadd 3 _ (mk_Vec [f0; f1; f2])) by done.
  unfold mbind at 1, M_bind at 1, lift at 1. simpl zip_with.
  unfold mbind at 1, M_bind at 1.
  pose proof (Vec_shl_run show 3 std_cout
    [fadd (fmul f0 g0) f0; fadd (fmul f1 g1) f1] (fadd (fmul f2 g2) f2) w) as E.
  cbn [app] in E. rewrite E; [reflexivity | reflexivity | lia | done].
Qed.

(** Line 166 for any element type: the listing of the three cells
    [f[i] * g[i] + f[i]] is written, and then control leaves [operator<<]
    without a returned stream. *)
Lemma main_line_166_run {F : Type} (zero : F) (fadd fmul : F → F → F)
    (show : F → item) (f0 f1 f2 g0 g1 g2 : F) (w : world) :
  main_line_166 zero fadd fmul show (mk_Vec [f0; f1; f2]) (mk_Vec [g0; g1; g2]) w
  = (set_cout (.++ [Chr "["; show (fadd (fmul f0 g0) f0); Str ", ";
                    show (fadd (fmul f1 g1) f1); Str ", ";
                    show (fadd (fmul f2 g2) f2); Chr "]"]) w, Undef).
Proof.
  unfold main_line_166.
  rewrite (Vec_times_same zero fmul 3 (mk_Vec [f0; f1; f2]) (mk_Vec [g0; g1; g2]))
    by done.
  unfold mbind at 1, M_bind at 1, lift at 1. simpl zip_with.
  rewrite (Vec_plus_same zero fadd 3 _ (mk_Vec [f0; f1; f2])) by done.
  unfold mbind at 1, M_bind at 1, lift at 1. simpl zip_with.
  unfold mbind at 1, M_bind at 1.
  pose proof (Vec_shl_run show 3 std_cout
    [fadd (fmul f0 g0) f0; fadd (fmul f1 g1) f1] (fadd (fmul f2 g2) f2) w) as E.
  cbn [app] in E. rewrite E; [reflexivity | reflexivity | lia | done].
Qed.

(** The three cells of [(f * g) + f] in binary32. *)
Lemma main_floats_cells :
  map (λ x, float_add (float_mul x x) x)
    [float_of_double (double_literal 1 10); float_of_double (double_literal 2 10);
     float_of_double (double_literal 3 10)]
  = [S754_finite false 14763950 (-27); S754_finite false 16106128 (-26);
     S754_finite false 13086229 (-25)].
Proof. vm_compute. reflexivity. Qed.

(** C9. Lines 162-166: with the three vectors built from the literals 0.1,
    0.2, 0.3 (and 0.5) narrowed to [float], whatever their cells held before,
    [(f * g) + f] computed cell by cell in binary32 is written to the output
    as exactly [[0.11, 0.24, 0.39]]. *)
Theorem main_floats_render (raw_f raw_g raw_h : list spec_float) (w : world) :
  length raw_f = 3%nat → length raw_g = 3%nat → length raw_h = 4%nat →
  emitted (main_floats raw_f raw_g raw_h) w
  = [Chr "["; Str "0.11"; Str ", "; Str "0.24"; Str ", "; Str "0.39"; Chr "]"] ∧
  ∀ fmt_ptr : addr → string,
    text fmt_ptr (emitted (main_floats raw_f raw_g raw_h) w) = "[0.11, 0.24, 0.39]".
Proof.
  intros Hf Hg Hh.
  assert (E : emitted (main_floats raw_f raw_g raw_h) w
    = [Chr "["; Str "0.11"; Str ", "; Str "0.24"; Str ", "; Str "0.39"; Chr "]"]).
  { apply emitted_set_cout with (r := Undef).
    unfold main_floats. cbv zeta.
    rewrite (Vec_of_list_fits 3 raw_f) by done.
    unfold mbind at 1, M_bind at 1, lift at 1.
    rewrite (Vec_of_list_fits 3 raw_g) by done.
    unfold mbind at 1, M_bind at 1, lift at 1.
    rewrite (Vec_of_list_fits 4 raw_h) by done.
    unfold mbind at 1, M_bind at 1, lift at 1.
    rewrite main_line_166_run.
    vm_compute. reflexivity. }
  split; [exact E|]. intros fmt_ptr. rewrite E. reflexivity.
Qed.

Lemma main_floats_render_witness :
  emitted (main_floats (replicate 3 float_zero) (replicate 3 float_zero)
             (replicate 4 float_zero)) empty_world
  = [Chr "["; Str "0.11"; Str ", "; Str "0.24"; Str ", "; Str "0.39"; Chr "]"] ∧
  ∀ fmt_ptr : addr → string,
    text fmt_ptr (emitted (main_floats (replicate 3 float_zero) (replicate 3 float_zero)
                             (replicate 4 float_zero)) empty_world)
    = "[0.11, 0.24, 0.39]".
Proof.
  apply (main_floats_render (replicate 3 float_zero) (replicate 3 float_zero)
           (replicate 4 float_zero) empty_world); reflexivity.
Defined.

(** ** 3. Ownership *)

Lemma foldl_snoc (out0 o : list item) :
  foldl (λ acc i, acc ++ [i]) out0 o = out0 ++ o.
Proof.
  revert out0. induction o as [|i o IH]; intros out0; simpl.
  - by rewrite (right_id_L [] (++)).
  - by rewrite IH, <- (assoc_L (++)).
Qed.

Lemma emitted_cout {A : Type} (m : M A) (w : world) (o : list item) :
  cout (fst (m w)) = cout w ++ o → emitted m w = o.
Proof. intros E. unfold emitted. by rewrite E, drop_app_length. Qed.

Lemma emitted_snoc {A : Type} (m : M A) (w : world) (o : list item) :
  cout (fst (m w)) = foldl (λ acc i, acc ++ [i]) (cout w) o → emitted m w = o.
Proof. rewrite foldl_snoc. apply emitted_cout. Qed.

(** [C]'s constructor never looks at its parameter. *)
Lemma C_ctor_ignores_argument (any x x' : Z) : C_ctor any x = C_ctor any x'.
Proof. reflexivity. Qed.

(** [B]'s constructor stores its parameter. *)
Lemma B_ctor_stores_argument (any x : Z) : B_ctor any x = objB x.
Proof. reflexivity. Qed.

(** Nothing makes the number found in the member of a [C] the default value
    of [int]. *)
Lemma C_field_not_default :
  ¬ (∀ any x : Z, C_y (C_ctor any x) = Some int_default).
Proof. intros H. specialize (H 7 5). discriminate H. Qed.

(** C3. The constructor of [C] gives the member [y] no value: whatever
    integer is passed, here 5 as in [std::make_unique<C>(5)], the member is
    initialised from itself and is left indeterminate. It is not the default
    value of [int] and not the argument, and the object built does not
    depend on the argument; the sibling constructor of [B] initialises its
    member with the argument. *)
Theorem C_field_indeterminate :
  C_init 5 = Indeterminate ∧
  C_init 5 ≠ Definite int_default ∧
  C_init 5 ≠ Definite 5 ∧
  B_init 5 = Definite 5 ∧
  (∀ x : Z, C_init x = Indeterminate ∧ B_init x = Definite x) ∧
  (∀ any x x' : Z, C_ctor any x = C_ctor any x') ∧
  ¬ (∀ any x : Z, C_y (C_ctor any x) = Some int_default).
Proof.
  repeat split; try done.
  intros H. specialize (H 7 5). discriminate H.
Qed.

(** The counts printed by [shared_ownership] for a handle on a live object
    whose control block counts [S c] owners: that count, one more inside the
    nested call, and that count again. *)
Lemma shared_ownership_counts (s : shared_ptr) (a : addr) (o : object) (c : nat)
    (w : world) :
  sp_get s = Some a → heap w !! a = Some o → ctrl w !! sp_ctrl s = Some (S c) →
  numbers (emitted (shared_ownership s) w)
  = [Z.of_nat (S c); Z.of_nat (S (S c)); Z.of_nat (S c)].
Proof.
  destruct s as [p k], w as [out hp ct b nc]. simpl. intros -> Hlive Hc.
  unfold emitted, shared_ownership, shared_ownership2.
  unfold mbind, M_bind, put, deref, A_shl, use_count, shared_ptr_copy,
    shared_ptr_dtor, delete_A, A_dtor, free, mbind, M_bind, put, mret, M_ret.
  destruct c as [|c]; simpl;
    repeat (first [rewrite Hc | rewrite Hlive | rewrite lookup_insert_eq]; simpl);
    rewrite <- !(assoc_L (++)), drop_app_length; reflexivity.
Qed.

Lemma shared_ownership_counts_witness :
  numbers (emitted (shared_ownership (mk_shared (Some 0%nat) 0%nat))
             (mk_world [] {[ 0%nat := objB 1 ]} {[ 0%nat := 1%nat ]} 1%nat 1%nat))
  = [1; 2; 1].
Proof.
  apply (shared_ownership_counts (mk_shared (Some 0%nat) 0%nat) 0%nat (objB 1) 0%nat);
    reflexivity.
Defined.

(** What line 204 prints, whatever was printed before: the object formerly
    at index 2 is taken over, counted three times and destroyed. *)
Lemma main_share_emits (junk : addr → Z) (out0 : list item) :
  match at_share junk out0 with
  | (w, Val vua) =>
      emitted (main_share vua) w
      = [Str "Took ownership of: "; Chr "("; Ptr 2; Chr ")"; Chr nl;
         Str "use_count: "; Num 1; Chr nl;
         Str "Took ownership of: "; Chr "("; Ptr 2; Chr ")"; Chr nl;
         Str "use_count: "; Num 2; Chr nl;
         Str "use_count: "; Num 1; Chr nl;
         Str (line "~A()")]
  | _ => False
  end.
Proof.
  assert (H : match at_share junk out0 with
    | (w, Val vua) =>
        cout (fst (main_share vua w))
        = foldl (λ acc i, acc ++ [i]) (cout w)
            [Str "Took ownership of: "; Chr "("; Ptr 2; Chr ")"; Chr nl;
             Str "use_count: "; Num 1; Chr nl;
             Str "Took ownership of: "; Chr "("; Ptr 2; Chr ")"; Chr nl;
             Str "use_count: "; Num 2; Chr nl;
             Str "use_count: "; Num 1; Chr nl;
             Str (line "~A()")]
    | _ => False
    end) by (vm_compute; reflexivity).
  destruct (at_share junk out0) as [w [vua| |]]; [|done|done].
  by apply emitted_snoc.
Qed.

(** The counts 2, 3, 2 are not the ones printed. *)
Lemma share_counts_not_2_3_2 : share_counts (λ _, 0) [] ≠ [2; 3; 2].
Proof. vm_compute. discriminate. Qed.

(** C1, amended. Whatever storage the objects got and whatever was printed
    before: when line 204 is reached the collection holds the handles of
    entries 0, 2 and 3; releasing the third entry into a shared handle and
    passing that temporary to [shared_ownership] prints, in order, the counts
    1 inside the outer routine, 2 inside the nested routine, and 1 again in
    the outer routine after the nested call returns. *)
Theorem share_counts_main (junk : addr → Z) (out0 : list item) :
  snd (at_share junk out0) = Val [Some 0%nat; None; Some 2%nat; Some 3%nat] ∧
  share_counts junk out0 = [1; 2; 1].
Proof.
  split; [vm_compute; reflexivity|].
  unfold share_counts. pose proof (main_share_emits junk out0) as H.
  destruct (at_share junk out0) as [w [vua| |]]; [|done|done].
  by rewrite H.
Qed.

(** The loop body tells an emptied slot from a live one. *)
Lemma report_slot_empty (w : world) : emitted (report_slot None) w = [moved_away].
Proof. by apply emitted_set_cout with (r := Val tt). Qed.

Lemma report_slot_live (a : addr) (o : object) (w : world) :
  heap w !! a = Some o →
  ∃ i, emitted (report_slot (Some a)) w = [i] ∧ invokes_action i.
Proof.
  intros Hlive. unfold emitted, report_slot, foo. rewrite Hlive.
  destruct o; eexists; (split; [by apply drop_app_length|]).
  - by left.
  - by right.
Qed.

Lemma report_slot_live_witness :
  ∃ i, emitted (report_slot (Some 0%nat))
         (mk_world [] {[ 0%nat := objB 3 ]} ∅ 1%nat 0%nat) = [i] ∧ invokes_action i.
Proof. apply (report_slot_live 0%nat (objB 3)). reflexivity. Defined.

(** Index 2 does not invoke its action in the second pass. *)
Lemma second_pass_index_2 :
  ¬ (second_pass_output (λ _, 0) [] !! 1%nat = Some moved_away ∧
     ∀ i : nat, i ∈ [0; 2; 3]%nat →
       ∃ o, second_pass_output (λ _, 0) [] !! i = Some o ∧ invokes_action o).
Proof.
  intros [_ H]. destruct (H 2%nat) as (o & Ho & Hact); [set_solver|].
  vm_compute in Ho. injection Ho as <-.
  destruct Hact as [E|E]; discriminate E.
Qed.

(** C2, amended. Whatever storage the objects got and whatever was printed
    before: after the hand-off of index 1 and the release of index 2 into a
    shared handle, the collection holds live handles at indices 0 and 3 only;
    iterating it again invokes the action at indices 0 and 3 and reports
    "The ownership has moved away!" at index 1 and at index 2. *)
Theorem second_pass_main (junk : addr → Z) (out0 : list item) :
  snd (at_second_pass junk out0) = Val [Some 0%nat; None; None; Some 3%nat] ∧
  second_pass_output junk out0
  = [Str (line "B.foo()"); moved_away; moved_away; Str (line "C.foo()")].
Proof.
  split; [vm_compute; reflexivity|].
  unfold second_pass_output.
  assert (H : match at_second_pass junk out0 with
    | (w, Val vua) =>
        cout (fst (main_second_pass vua w))
        = foldl (λ acc i, acc ++ [i]) (cout w)
            [Str (line "B.foo()"); moved_away; moved_away; Str (line "C.foo()")]
    | _ => False
    end) by (vm_compute; reflexivity).
  destruct (at_second_pass junk out0) as [w [vua| |]]; [|done|done].
  by apply emitted_snoc.
Qed.

(** Deleting through [A*] runs [A::~A] alone, whatever the object is. *)
Lemma delete_A_run (a : addr) (o : object) (w : world) :
  heap w !! a = Some o →
  delete_A (Some a) w
  = (set_heap (delete a) (set_cout (.++ [Str (line "~A()")]) w), Val tt).
Proof.
  intros Hlive. unfold delete_A, A_dtor, free, mbind, M_bind, put. simpl.
  by rewrite Hlive.
Qed.

(** Everything lines 178-251 print, whatever was printed before. *)
Lemma main_tail_emits (junk : addr → Z) (out0 : list item) :
  emitted (main_tail junk) (line_178 out0)
  = [Str (line "B.foo()"); Str (line "B.foo()"); Str (line "C.foo()");
     Str (line "C.foo()"); Str (line "B.foo()"); Str (line "B.foo()");
     Str (line "C.foo()"); Str (line "C.foo()");
     Str "Took ownership of: "; Chr "("; Ptr 1; Chr ")"; Chr nl;
     Str (line "~A()");
     Str "Took ownership of: "; Chr "("; Ptr 2; Chr ")"; Chr nl;
     Str "use_count: "; Num 1; Chr nl;
     Str "Took ownership of: "; Chr "("; Ptr 2; Chr ")"; Chr nl;
     Str "use_count: "; Num 2; Chr nl;
     Str "use_count: "; Num 1; Chr nl;
     Str (line "~A()");
     Str (line "B.foo()"); moved_away; moved_away; Str (line "C.foo()");
     Str (line "a"); Str (line "a"); Str (line "a");
     Str "Hello, John Doe"; Chr nl;
     Str "John Doegot the secret (42)"; Chr nl;
     Str "Bye, John Doe"; Chr nl;
     Str (line "~A()"); Str (line "~A()")].
Proof. apply emitted_snoc. vm_compute. reflexivity. Qed.

(** C10. [A]'s destructor is not virtual. Destroying a managed object of
    either dynamic type through an owning handle of type [A] prints "~A()"
    and nothing else: at the exit of [takes_ownership], when the last shared
    handle is released, and when the collection is destroyed at the end of
    [main]. In the run of [main] from line 178 on, which ends normally, the
    destructor messages are four times "~A()"; "~B()" and "~C()" are never
    printed. *)
Theorem base_destructor_only :
  (∀ (w : world) (a : addr) (o : object), heap w !! a = Some o →
     emitted (unique_ptr_dtor (Some a)) w = [Str (line "~A()")] ∧
     emitted (takes_ownership (Some a)) w
     = [Str "Took ownership of: "; Chr "("; Ptr a; Chr ")"; Chr nl; Str (line "~A()")] ∧
     (∀ k : nat, ctrl w !! k = Some 1%nat →
        emitted (shared_ptr_dtor (mk_shared (Some a) k)) w = [Str (line "~A()")]) ∧
     emitted (main_exit [Some a] []) w = [Str (line "~A()")]) ∧
  (∀ (junk : addr → Z) (out0 : list item),
     snd (main_tail junk (line_178 out0)) = Val tt ∧
     dtor_messages (emitted (main_tail junk) (line_178 out0))
     = replicate 4 (Str (line "~A()")) ∧
     (Str (line "~B()") ∉ emitted (main_tail junk) (line_178 out0)) ∧
     (Str (line "~C()") ∉ emitted (main_tail junk) (line_178 out0))).
Proof.
  split.
  - intros w a o Hlive. repeat split.
    + apply emitted_cout. unfold unique_ptr_dtor.
      by rewrite (delete_A_run a o w Hlive).
    + apply emitted_cout. destruct w as [out hp ct b nc]. simpl in Hlive.
      unfold takes_ownership, unique_ptr_dtor, delete_A, A_dtor, free.
      unfold mbind, M_bind, deref, A_shl, put, mret, M_ret. simpl.
      rewrite Hlive. simpl. by rewrite <- !(assoc_L (++)).
    + intros k Hk. apply emitted_cout. unfold shared_ptr_dtor.
      cbn [sp_ctrl sp_get]. rewrite Hk.
      by rewrite (delete_A_run a o) by done.
    + apply emitted_cout. unfold main_exit, for_each, unique_ptr_dtor.
      unfold mbind, M_bind. by rewrite (delete_A_run a o w Hlive).
  - intros junk out0. rewrite main_tail_emits.
    split; [vm_compute; reflexivity|].
    split; [vm_compute; reflexivity|].
    split; apply (bool_decide_unpack _); vm_compute; exact I.
Qed.

Lemma base_destructor_only_witness :
  emitted (unique_ptr_dtor (Some 0%nat))
    (mk_world [] {[ 0%nat := objC 9 ]} {[ 0%nat := 1%nat ]} 1%nat 1%nat)
  = [Str (line "~A()")] ∧
  emitted (shared_ptr_dtor (mk_shared (Some 0%nat) 0%nat))
    (mk_world [] {[ 0%nat := objC 9 ]} {[ 0%nat := 1%nat ]} 1%nat 1%nat)
  = [Str (line "~A()")].
Proof.
  pose proof (proj1 base_destructor_only
    (mk_world [] {[ 0%nat := objC 9 ]} {[ 0%nat := 1%nat ]} 1%nat 1%nat)
    0%nat (objC 9) eq_refl) as (H1 & _ & H3 & _).
  split; [exact H1|]. apply H3. reflexivity.
Defined.

(** ** 4. The gallery of callables *)

(** A capture by reference reads the variable when the closure is called. *)
Lemma lambda_foo_reads_live (env : locals) (name : string) :
  lambda_foo env name = greet env +:+ name.
Proof. reflexivity. Qed.

(** A capture by value keeps the copy made at creation: the variables at the
    time of the call do not matter. *)
Lemma lambda_bar_keeps_copy (n : Z) (env env' : locals) (name : string) :
  lambda_bar n env name = lambda_bar n env' name ∧
  lambda_bar n env name = name +:+ "got the secret (" +:+ show_int n +:+ ")".
Proof.
  split; [done|]. unfold lambda_bar. simpl.
  by rewrite !append_assoc.
Qed.

Lemma fn_of_Adder_prefixes (a : Adder string) (env : locals) (name : string) :
  fn_of_Adder a env name = Adder_y a +:+ name.
Proof. reflexivity. Qed.

(** The collection pass calls the callables in order, appends each result
    and prints one marker per call. *)
Lemma collect_run (env : locals) (john : string) (fv : list fn) :
  ∀ (sv : list string) (w : world),
    collect env john fv sv w
    = (set_cout (.++ replicate (length fv) (Str (line "a"))) w,
       Val (sv ++ map (λ f, f env john) fv)).
Proof.
  induction fv as [|f fv IH]; intros sv w; simpl.
  - by rewrite set_cout_nil, (right_id_L [] (++)).
  - unfold mbind, M_bind, put. rewrite IH, set_cout_app.
    by rewrite <- (assoc_L (++)).
Qed.

Lemma main_print_run (sv : list string) : ∀ w : world,
  main_print sv w
  = (set_cout (.++ flat_map (λ s, [Str s; Chr nl]) sv) w, Val tt).
Proof.
  unfold main_print. induction sv as [|s sv IH]; intros w; simpl.
  - by rewrite set_cout_nil.
  - unfold mbind at 1, M_bind at 1. rewrite put_put, IH.
    by rewrite set_cout_app.
Qed.

(** C7. With the prefix "Hello, " captured by reference, the secret 42
    captured by value and the callable object holding "Bye, ", calling the
    three callables in insertion order on "John Doe" yields "Hello, John
    Doe", "John Doegot the secret (42)" and "Bye, John Doe", in that order,
    with one marker line printed per call; the outputs are then printed one
    per line in the same order. *)
Theorem gallery_outputs (w : world) :
  main_gallery w
  = (set_cout (.++ replicate 3 (Str (line "a"))) w,
     Val ["Hello, John Doe"; "John Doegot the secret (42)"; "Bye, John Doe"]) ∧
  map (λ f : fn, f main_locals "John Doe") main_fv
  = ["Hello, John Doe"; "John Doegot the secret (42)"; "Bye, John Doe"] ∧
  emitted (main_gallery ≫= main_print) w
  = replicate 3 (Str (line "a")) ++
    [Str "Hello, John Doe"; Chr nl;
     Str "John Doegot the secret (42)"; Chr nl;
     Str "Bye, John Doe"; Chr nl] ∧
  (∀ fmt_ptr,
     text fmt_ptr (drop 3 (emitted (main_gallery ≫= main_print) w))
     = line "Hello, John Doe" +:+ line "John Doegot the secret (42)"
       +:+ line "Bye, John Doe").
Proof.
  assert (G : main_gallery w
    = (set_cout (.++ replicate 3 (Str (line "a"))) w,
       Val ["Hello, John Doe"; "John Doegot the secret (42)"; "Bye, John Doe"])).
  { unfold main_gallery. by rewrite collect_run. }
  assert (E : emitted (main_gallery ≫= main_print) w
    = replicate 3 (Str (line "a")) ++
      [Str "Hello, John Doe"; Chr nl;
       Str "John Doegot the secret (42)"; Chr nl;
       Str "Bye, John Doe"; Chr nl]).
  { apply emitted_set_cout with (r := Val tt).
    unfold mbind, M_bind. rewrite G, main_print_run.
    by rewrite set_cout_app. }
  split; [exact G|]. split; [done|]. split; [exact E|].
  intros fmt_ptr. by rewrite E.
Qed.

(** * Further properties *)

(** ** The token and the validator's line *)

Lemma take_word_no_space (input : string) : no_space (take_word input) = true.
Proof.
  induction input as [|c rest IH]; simpl; [done|].
  destruct (is_space c) eqn:E; simpl; [done|]. by rewrite E, IH.
Qed.

Lemma cin_extract_no_space (input : string) : no_space (cin_extract input) = true.
Proof. apply take_word_no_space. Qed.

Lemma skip_ws_all_space (pre rest : string) :
  all_space pre = true → skip_ws (pre +:+ rest) = skip_ws rest.
Proof.
  induction pre as [|c pre IH]; [done|].
  change (String c pre +:+ rest) with (String c (pre +:+ rest)). simpl.
  intros [Hc Hpre]%andb_prop. by rewrite Hc, IH.
Qed.

Lemma take_word_stops (tok post : string) (c : ascii) :
  no_space tok = true → is_space c = true →
  take_word (tok +:+ String c post) = tok.
Proof.
  intros Htok Hc. induction tok as [|d tok IH].
  - change ("" +:+ String c post) with (String c post). simpl. by rewrite Hc.
  - change (String d tok +:+ String c post) with (String d (tok +:+ String c post)).
    simpl in *. apply andb_prop in Htok as [Hd Htok].
    apply negb_true_iff in Hd. by rewrite Hd, IH.
Qed.

Lemma take_word_all (tok : string) : no_space tok = true → take_word tok = tok.
Proof.
  induction tok as [|d tok IH]; [done|]. simpl.
  intros [Hd Htok]%andb_prop. apply negb_true_iff in Hd. by rewrite Hd, IH.
Qed.

Lemma skip_ws_word (tok rest : string) :
  no_space tok = true → tok ≠ "" → skip_ws (tok +:+ rest) = tok +:+ rest.
Proof.
  destruct tok as [|d tok]; [done|]. intros Htok _.
  change (String d tok +:+ rest) with (String d (tok +:+ rest)).
  simpl in *. apply andb_prop in Htok as [Hd _].
  apply negb_true_iff in Hd. by rewrite Hd.
Qed.

(** X1. The line the validator prints tells the outcome apart for every
    input: the token extracted from the input holds no white space, so an
    echoed token is never one of the two messages. The line is "Out of range"
    iff the token has more than 10 characters, "invalid argument" iff it has
    fewer than 5, and the token itself iff it has 5 to 10. *)
Theorem validator_line_identifies (input : string) (w : world) :
  (emitted (main_validate input) w = [Str "Out of range"; Chr nl]
   ↔ (10 < String.length (cin_extract input))%nat) ∧
  (emitted (main_validate input) w = [Str "invalid argument"; Chr nl]
   ↔ (String.length (cin_extract input) < 5)%nat) ∧
  (emitted (main_validate input) w = [Str (cin_extract input); Chr nl]
   ↔ (5 ≤ String.length (cin_extract input) ≤ 10)%nat).
Proof.
  unfold main_validate. cbv zeta.
  pose proof (cin_extract_no_space input) as Hns.
  set (s := cin_extract input) in *.
  destruct (Nat.le_gt_cases (String.length s) 10) as [Hle|Hgt].
  - destruct (Nat.le_gt_cases 5 (String.length s)) as [Hge|Hlt].
    + destruct (validator_fits s w (conj Hge Hle)) as [_ ->].
      (split; [|split]); (split; intros H); try done; try (exfalso; lia); try lia.
      * injection H as E. rewrite E in Hle. simpl in Hle. lia.
      * injection H as E. rewrite E in Hle. simpl in Hle. lia.
    + destruct (validator_short s w Hlt) as [_ ->].
      (split; [|split]); (split; intros H); try done; try (exfalso; lia); try lia.
      injection H as E. rewrite <- E in Hlt. simpl in Hlt. lia.
  - destruct (validator_long s w Hgt) as [_ ->].
    (split; [|split]); (split; intros H); try done; try (exfalso; lia); try lia.
    injection H as E. rewrite <- E in Hns. discriminate Hns.
Qed.

(** X2. Only the first word of the input matters: white space before it is
    skipped and everything from the first white space after it is ignored, so
    the validator does on the whole input what it does on that word alone. *)
Theorem main_validate_first_word (pre tok post : string) (c : ascii) :
  all_space pre = true → no_space tok = true → tok ≠ "" → is_space c = true →
  cin_extract (pre +:+ tok +:+ String c post) = tok ∧
  cin_extract (pre +:+ tok) = tok ∧
  main_validate (pre +:+ tok +:+ String c post) = validator tok.
Proof.
  intros Hpre Htok Hne Hc.
  assert (E1 : cin_extract (pre +:+ tok +:+ String c post) = tok).
  { unfold cin_extract. rewrite skip_ws_all_space by done.
    rewrite skip_ws_word by done. by apply take_word_stops. }
  split; [exact E1|]. split.
  - unfold cin_extract. rewrite skip_ws_all_space by done.
    replace tok with (tok +:+ "") at 1 by (clear; induction tok as [|d t IH];
      [done | change (String d t +:+ "") with (String d (t +:+ "")); by rewrite IH]).
    rewrite skip_ws_word by done.
    replace (tok +:+ "") with tok by (clear; induction tok as [|d t IH];
      [done | change (String d t +:+ "") with (String d (t +:+ "")); by rewrite <- IH]).
    by apply take_word_all.
  - unfold main_validate. cbv zeta. by rewrite E1.
Qed.

Lemma main_validate_first_word_witness :
  cin_extract ("  " +:+ "hello" +:+ String " " "world") = "hello" ∧
  cin_extract ("  " +:+ "hello") = "hello" ∧
  main_validate ("  " +:+ "hello" +:+ String " " "world") = validator "hello".
Proof.
  apply (main_validate_first_word "  " "hello" "world" " ");
    [reflexivity | reflexivity | discriminate | reflexivity].
Defined.

(** ** Cells, copies and arithmetic of vectors *)

(** X3. [operator[]] has no bounds check. For a vector of [N] cells and an
    index below [N], a write succeeds, keeps the number of cells, is read
    back by the same index and leaves every other cell as it was; for an
    index of [N] or more both the read and the write are undefined. *)
Theorem Vec_subscript_bounds {T : Type} (N : nat) (v : Vec T) (i : nat) (x : T) :
  has_size N v →
  ((i < N)%nat →
   ∃ v', Vec_set v i x = Val v' ∧ has_size N v' ∧ Vec_at v' i = Val x ∧
         ∀ j, j ≠ i → Vec_at v' j = Vec_at v j) ∧
  ((N ≤ i)%nat → Vec_at v i = Undef ∧ Vec_set v i x = Undef).
Proof.
  unfold has_size, Vec_at, Vec_set, subscript, assign. intros Hv. split.
  - intros Hi. destruct (decide (i < length (data v))%nat) as [_|]; [|lia].
    eexists. split; [reflexivity|]. simpl. repeat split.
    + by rewrite length_insert.
    + by rewrite list_lookup_insert_eq by lia.
    + intros j Hj. by rewrite list_lookup_insert_ne by done.
  - intros Hi. rewrite lookup_ge_None_2 by lia.
    by destruct (decide (i < length (data v))%nat); [lia|].
Qed.

Lemma Vec_subscript_bounds_witness :
  has_size 3 (mk_Vec [1; 2; 3]) ∧
  ((1 < 3)%nat →
   ∃ v', Vec_set (mk_Vec [1; 2; 3]) 1 9 = Val v' ∧ has_size 3 v' ∧
         Vec_at v' 1 = Val 9 ∧
         ∀ j, j ≠ 1%nat → Vec_at v' j = Vec_at (mk_Vec [1; 2; 3]) j) ∧
  ((3 ≤ 1)%nat →
   Vec_at (mk_Vec [1; 2; 3]) 1 = Undef ∧ Vec_set (mk_Vec [1; 2; 3]) 1 9 = Undef).
Proof.
  split; [reflexivity|].
  apply (Vec_subscript_bounds 3 (mk_Vec [1; 2; 3]) 1 9). reflexivity.
Defined.

(** X4. The copy constructor of a vector of [N] cells gives a vector equal
    to the original, whatever the new cells held before; copying never fails
    and never reads or writes out of bounds. *)
Theorem Vec_copy_equal {T : Type} (N : nat) (raw : list T) (v : Vec T) :
  length raw = N → has_size N v →
  Vec_copy N raw v = Val v ∧
  (∀ raw', length raw' = N → Vec_copy N raw' v = Vec_copy N raw v).
Proof.
  intros Hraw Hv. split; [by apply Vec_copy_same|].
  intros raw' Hraw'. by rewrite !Vec_copy_same.
Qed.

Lemma Vec_copy_equal_witness :
  Vec_copy 3 [7; 7; 7] (mk_Vec [1; 2; 3]) = Val (mk_Vec [1; 2; 3]) ∧
  (∀ raw', length raw' = 3%nat →
     Vec_copy 3 raw' (mk_Vec [1; 2; 3]) = Vec_copy 3 [7; 7; 7] (mk_Vec [1; 2; 3])).
Proof.
  apply (Vec_copy_equal 3 [7; 7; 7] (mk_Vec [1; 2; 3])); reflexivity.
Defined.

Section ArithLaws.
Context {T : Type} (zero : T) (add mul : T → T → T).

Lemma zip_with_replicate_l (z : T) (l : list T) :
  (∀ x, add z x = x) → zip_with add (replicate (length l) z) l = l.
Proof.
  intros Hz. induction l as [|x l IH]; simpl; [done|]. by rewrite Hz, IH.
Qed.

Lemma zip_with_comm (op : T → T → T) (a b : list T) :
  (∀ x y, op x y = op y x) → zip_with op a b = zip_with op b a.
Proof.
  intros Hc. revert b. induction a as [|x a IH]; intros [|y b]; simpl; try done.
  by rewrite Hc, IH.
Qed.
End ArithLaws.

(** X5. When the value-initialised element is neutral on the left of [+],
    adding a vector to a default-constructed vector of the same size, a size
    that the [int] counter of the loop can reach, gives that vector back. *)
Theorem Vec_plus_default {T : Type} (zero : T) (add : T → T → T) (N : nat) (v : Vec T) :
  (∀ x, add zero x = x) → has_size N v → (Z.of_nat N ≤ INT_MAX)%Z →
  has_size N (Vec_default zero N) ∧
  Vec_plus zero add N N (Vec_default zero N) v = Val v.
Proof.
  intros Hz Hv HN.
  assert (Hd : has_size N (Vec_default zero N)) by apply length_replicate.
  split; [exact Hd|].
  rewrite (Vec_plus_same zero add N _ v Hd Hv HN). simpl.
  unfold has_size in Hv. rewrite <- Hv.
  rewrite (zip_with_replicate_l add zero (data v) Hz). by destruct v.
Qed.

Lemma Vec_plus_default_witness :
  has_size 3 (Vec_default 0 3) ∧
  Vec_plus 0 Z.add 3 3 (Vec_default 0 3) (mk_Vec [4; 5; 6]) = Val (mk_Vec [4; 5; 6]).
Proof.
  apply (Vec_plus_default 0 Z.add 3 (mk_Vec [4; 5; 6]));
    [intros x; lia | reflexivity | unfold INT_MAX; lia].
Defined.

(** X6. The expression [(f * g) + f] on vectors of the same size [N], for
    every [N] up to [INT_MAX]: it throws nothing, and cell [i] of the result
    is [f[i] * g[i] + f[i]]. *)
Theorem Vec_times_then_plus {T : Type} (zero : T) (add mul : T → T → T)
    (N : nat) (f g : Vec T) :
  has_size N f → has_size N g → (Z.of_nat N ≤ INT_MAX)%Z →
  ∃ r, (Vec_times zero mul N N f g ≫= λ fg, Vec_plus zero add N N fg f) = Val r ∧
       has_size N r ∧
       ∀ i x y, data f !! i = Some x → data g !! i = Some y →
                data r !! i = Some (add (mul x y) x).
Proof.
  intros Hf Hg HN.
  rewrite (Vec_times_same zero mul N f g Hf Hg HN).
  change (Val ?v ≫= ?k) with (k v). cbv beta.
  assert (Hfg : has_size N (mk_Vec (zip_with mul (data f) (data g)))).
  { unfold has_size in *. simpl. rewrite length_zip_with. lia. }
  rewrite (Vec_plus_same zero add N _ f Hfg Hf HN). simpl.
  eexists. split; [reflexivity|]. split.
  - unfold has_size in *. simpl. rewrite !length_zip_with. lia.
  - intros i x y Hx Hy. simpl. by rewrite !lookup_zip_with, Hx, Hy.
Qed.

Lemma Vec_times_then_plus_witness :
  ∃ r, (Vec_times 0 Z.mul 2 2 (mk_Vec [2; 3]) (mk_Vec [5; 7])
          ≫= λ fg, Vec_plus 0 Z.add 2 2 fg (mk_Vec [2; 3])) = Val r ∧
       has_size 2 r ∧
       ∀ i x y, [2; 3] !! i = Some x → [5; 7] !! i = Some y →
                data r !! i = Some (x * y + x).
Proof.
  apply (Vec_times_then_plus 0 Z.add Z.mul 2 (mk_Vec [2; 3]) (mk_Vec [5; 7]));
    [reflexivity | reflexivity | unfold INT_MAX; lia].
Defined.

(** X7. When the element operation commutes, so do [operator+] and
    [operator*] on vectors whose sizes are at most [INT_MAX]: with equal
    sizes the two orders give the same vector, with different sizes both
    throw the size error. *)
Theorem Vec_arith_comm {T : Type} (zero : T) (add mul : T → T → T)
    (N M : nat) (a b : Vec T) :
  (∀ x y, add x y = add y x) → (∀ x y, mul x y = mul y x) →
  has_size N a → has_size M b →
  (Z.of_nat N ≤ INT_MAX)%Z → (Z.of_nat M ≤ INT_MAX)%Z →
  Vec_plus zero add N M a b = Vec_plus zero add M N b a ∧
  Vec_times zero mul N M a b = Vec_times zero mul M N b a ∧
  (N = M → ∃ r s, Vec_plus zero add N M a b = Val r ∧
                  Vec_times zero mul N M a b = Val s) ∧
  (N ≠ M → Vec_plus zero add N M a b = Exc size_mismatch ∧
           Vec_times zero mul N M a b = Exc size_mismatch).
Proof.
  intros Hadd Hmul Ha Hb HN HM.
  destruct (decide (N = M)) as [<-|Hne].
  - rewrite (Vec_plus_same zero add N a b), (Vec_plus_same zero add N b a) by done.
    rewrite (Vec_times_same zero mul N a b), (Vec_times_same zero mul N b a) by done.
    rewrite (zip_with_comm add _ _ Hadd), (zip_with_comm mul _ _ Hmul).
    split; [done|]. split; [done|].
    split; [intros _; by eexists _, _ | intros Hn; by destruct Hn].
  - rewrite (Vec_plus_mismatch zero add N M a b), (Vec_plus_mismatch zero add M N b a)
      by done.
    rewrite (Vec_times_mismatch zero mul N M a b),
      (Vec_times_mismatch zero mul M N b a) by done.
    split; [done|]. split; [done|]. split; [intros Hn; by destruct Hne | done].
Qed.

Lemma Vec_arith_comm_witness :
  Vec_plus 0 Z.add 2 2 (mk_Vec [1; 2]) (mk_Vec [3; 4])
  = Vec_plus 0 Z.add 2 2 (mk_Vec [3; 4]) (mk_Vec [1; 2]) ∧
  Vec_times 0 Z.mul 2 2 (mk_Vec [1; 2]) (mk_Vec [3; 4])
  = Vec_times 0 Z.mul 2 2 (mk_Vec [3; 4]) (mk_Vec [1; 2]) ∧
  (2%nat = 2%nat →
   ∃ r s, Vec_plus 0 Z.add 2 2 (mk_Vec [1; 2]) (mk_Vec [3; 4]) = Val r ∧
          Vec_times 0 Z.mul 2 2 (mk_Vec [1; 2]) (mk_Vec [3; 4]) = Val s) ∧
  (2%nat ≠ 2%nat →
   Vec_plus 0 Z.add 2 2 (mk_Vec [1; 2]) (mk_Vec [3; 4]) = Exc size_mismatch ∧
   Vec_times 0 Z.mul 2 2 (mk_Vec [1; 2]) (mk_Vec [3; 4]) = Exc size_mismatch).
Proof.
  apply (Vec_arith_comm 0 Z.add Z.mul 2 2 (mk_Vec [1; 2]) (mk_Vec [3; 4]));
    [intros x y; lia | intros x y; lia | reflexivity | reflexivity
    | unfold INT_MAX; lia | unfold INT_MAX; lia].
Defined.

(** ** What rendering writes *)

(** X8. For every vector of [N ≥ 1] cells with [N - 1] at most [INT_MAX],
    so that the [int] counter of the loop can reach it, [operator<<] writes
    the opening bracket, the cells in index order with ", " between them and
    nothing after the last, and the closing bracket: the characters are those
    of the listing [[a, b, c]]. *)
Theorem Vec_shl_writes_listing {T : Type} (show : T → item) (N : nat)
    (os : ostream) (v : Vec T) (w : world) :
  has_size N v → (1 ≤ N)%nat → (Z.of_nat N - 1 ≤ INT_MAX)%Z →
  emitted (Vec_shl show N os v) w
  = Chr "[" :: separated (map show (data v)) ++ [Chr "]"] ∧
  ∀ fmt_ptr : addr → string,
    text fmt_ptr (emitted (Vec_shl show N os v) w)
    = bracketed (map (λ x, item_text fmt_ptr (show x)) (data v)).
Proof.
  intros Hv HN Hfit.
  assert (E : emitted (Vec_shl show N os v) w
              = Chr "[" :: separated (map show (data v)) ++ [Chr "]"]).
  { apply emitted_set_cout with (r := Undef). by apply Vec_shl_listing. }
  split; [exact E|]. intros fmt_ptr. rewrite E.
  destruct v as [cells]. unfold has_size in Hv. simpl in *.
  destruct cells as [|back front _] using rev_ind; [simpl in Hv; lia|].
  rewrite separated_snoc, <- (assoc_L (++)). apply Vec_shl_text.
Qed.

Lemma Vec_shl_writes_listing_witness :
  emitted (Vec_shl Num 3 std_cout (mk_Vec [4; 5; 6])) empty_world
  = [Chr "["; Num 4; Str ", "; Num 5; Str ", "; Num 6; Chr "]"] ∧
  ∀ fmt_ptr : addr → string,
    text fmt_ptr (emitted (Vec_shl Num 3 std_cout (mk_Vec [4; 5; 6])) empty_world)
    = bracketed (map (λ x, item_text fmt_ptr (Num x)) [4; 5; 6]).
Proof.
  apply (Vec_shl_writes_listing Num 3 std_cout (mk_Vec [4; 5; 6]) empty_world);
    [reflexivity | lia | unfold INT_MAX; lia].
Defined.

(** ** Ownership: what is freed, what stays, what is undefined *)

Lemma bind_run_val {A B : Type} (m : M A) (f : A → M B) (w w' : world) (a : A) :
  m w = (w', Val a) → (m ≫= f) w = f a w'.
Proof. intros E. unfold mbind, M_bind. by rewrite E. Qed.

Lemma bind_run_undef {A B : Type} (m : M A) (f : A → M B) (w w' : world) :
  m w = (w', Undef) → (m ≫= f) w = (w', Undef).
Proof. intros E. unfold mbind, M_bind. by rewrite E. Qed.

(** X11. [takes_ownership] consumes the object it is handed: the call
    returns, the object at that address is freed and every other object,
    every control block and the allocator are left alone; afterwards calling
    [foo] through the old address or deleting it a second time is undefined. *)
Theorem takes_ownership_consumes (a : addr) (o : object) (w : world) :
  heap w !! a = Some o →
  ∃ w', takes_ownership (Some a) w = (w', Val tt) ∧
        heap w' = delete a (heap w) ∧ ctrl w' = ctrl w ∧
        brk w' = brk w ∧ next_ctrl w' = next_ctrl w ∧
        snd (foo a w') = Undef ∧
        snd (delete_A (Some a) w') = Undef ∧
        snd (takes_ownership (Some a) w') = Undef.
Proof.
  intros Hlive. destruct w as [out hp ct b nc]. simpl in Hlive.
  eexists. split.
  - unfold takes_ownership, unique_ptr_dtor, delete_A, A_dtor, free.
    unfold mbind, M_bind, deref, A_shl, put, mret, M_ret. simpl.
    rewrite Hlive. reflexivity.
  - simpl. repeat split.
    + unfold foo. simpl. by rewrite lookup_delete_eq.
    + unfold delete_A, A_dtor, free, mbind, M_bind, put. simpl.
      by rewrite lookup_delete_eq.
    + unfold takes_ownership, unique_ptr_dtor, delete_A, A_dtor, free.
      unfold mbind, M_bind, deref, A_shl, put, mret, M_ret. simpl.
      by rewrite lookup_delete_eq.
Qed.

Lemma takes_ownership_consumes_witness :
  ∃ w', takes_ownership (Some 0%nat)
          (mk_world [] {[ 0%nat := objB 3 ]} ∅ 1%nat 0%nat) = (w', Val tt) ∧
        heap w' = delete 0%nat ({[ 0%nat := objB 3 ]} : gmap addr object) ∧
        ctrl w' = ∅ ∧ brk w' = 1%nat ∧ next_ctrl w' = 0%nat ∧
        snd (foo 0%nat w') = Undef ∧
        snd (delete_A (Some 0%nat) w') = Undef ∧
        snd (takes_ownership (Some 0%nat) w') = Undef.
Proof.
  exact (takes_ownership_consumes 0%nat (objB 3)
           (mk_world [] {[ 0%nat := objB 3 ]} ∅ 1%nat 0%nat) eq_refl).
Defined.

(** The primitives of shared handles on a world given by its fields. *)
Lemma use_count_run (p : option addr) (k n : nat) out hp ct b nc :
  ct !! k = Some n →
  use_count (mk_shared p k) (mk_world out hp ct b nc)
  = (mk_world out hp ct b nc, Val (Z.of_nat n)).
Proof. intros H. unfold use_count. simpl. by rewrite H. Qed.

Lemma shared_ptr_copy_run (p : option addr) (k n : nat) out hp ct b nc :
  ct !! k = Some n →
  shared_ptr_copy (mk_shared p k) (mk_world out hp ct b nc)
  = (mk_world out hp (<[k := S n]> ct) b nc, Val (mk_shared p k)).
Proof. intros H. unfold shared_ptr_copy. simpl. by rewrite H. Qed.

Lemma shared_ptr_dtor_more (p : option addr) (k n : nat) out hp ct b nc :
  ct !! k = Some (S (S n)) →
  shared_ptr_dtor (mk_shared p k) (mk_world out hp ct b nc)
  = (mk_world out hp (<[k := S n]> ct) b nc, Val tt).
Proof. intros H. unfold shared_ptr_dtor. simpl. by rewrite H. Qed.

Lemma shared_ptr_dtor_last (a : addr) (o : object) (k : nat) out hp ct b nc :
  ct !! k = Some 1%nat → hp !! a = Some o →
  shared_ptr_dtor (mk_shared (Some a) k) (mk_world out hp ct b nc)
  = (mk_world (out ++ [Str (line "~A()")]) (delete a hp) (delete k ct) b nc, Val tt).
Proof.
  intros Hk Ha. unfold shared_ptr_dtor. cbn [sp_ctrl sp_get ctrl]. rewrite Hk.
  by rewrite (delete_A_run a o) by done.
Qed.

(** The line that the three routines print first. *)
Lemma took_line_run (a : addr) (k : M unit) out hp ct b nc :
  (put (Str "Took ownership of: ");;
   x ← deref (Some a); A_shl std_cout x;; put (Chr nl);; k)
    (mk_world out hp ct b nc)
  = k (mk_world (out ++ [Str "Took ownership of: "; Chr "("; Ptr a; Chr ")"; Chr nl])
         hp ct b nc).
Proof.
  unfold mbind, M_bind, put, deref, A_shl, mret, M_ret. simpl.
  by rewrite !set_cout_app.
Qed.

Lemma count_line_run (p : option addr) (k n : nat) (rest : M unit) out hp ct b nc :
  ct !! k = Some n →
  (put (Str "use_count: ");;
   c ← use_count (mk_shared p k); put (Num c);; put (Chr nl);; rest)
    (mk_world out hp ct b nc)
  = rest (mk_world (out ++ [Str "use_count: "; Num (Z.of_nat n); Chr nl]) hp ct b nc).
Proof.
  intros H. unfold mbind at 1, M_bind at 1, put at 1. cbv beta iota.
  unfold set_cout. cbn [cout heap ctrl brk next_ctrl].
  rewrite (bind_run_val _ _ _ _ _ (use_count_run p k n _ hp ct b nc H)).
  unfold mbind, M_bind, put, set_cout. cbn [cout heap ctrl brk next_ctrl].
  by rewrite <- !(assoc_L (++)).
Qed.

Lemma shared_ownership2_run (a : addr) (k n : nat) out hp ct b nc :
  ct !! k = Some n →
  shared_ownership2 (mk_shared (Some a) k) (mk_world out hp ct b nc)
  = shared_ptr_dtor (mk_shared (Some a) k)
      (mk_world (out ++ [Str "Took ownership of: "; Chr "("; Ptr a; Chr ")"; Chr nl;
                         Str "use_count: "; Num (Z.of_nat n); Chr nl]) hp ct b nc).
Proof.
  intros H. unfold shared_ownership2. simpl sp_get.
  rewrite took_line_run, (count_line_run _ _ n) by done.
  by rewrite <- !(assoc_L (++)).
Qed.

Lemma copy_then_shared_ownership2 (a : addr) (k c : nat) out hp ct b nc :
  ct !! k = Some (S c) →
  (shared_ptr_copy (mk_shared (Some a) k) ≫= shared_ownership2)
    (mk_world out hp ct b nc)
  = (mk_world (out ++ [Str "Took ownership of: "; Chr "("; Ptr a; Chr ")"; Chr nl;
                       Str "use_count: "; Num (Z.of_nat (S (S c))); Chr nl])
       hp ct b nc, Val tt).
Proof.
  intros H.
  rewrite (bind_run_val _ _ _ _ _ (shared_ptr_copy_run _ k (S c) out hp ct b nc H)).
  rewrite (shared_ownership2_run a k (S (S c))) by apply lookup_insert_eq.
  rewrite (shared_ptr_dtor_more _ k c) by apply lookup_insert_eq.
  by rewrite insert_insert_eq, (insert_id ct k (S c) H).
Qed.

(** X12. Passing a shared handle by value to [shared_ownership2] is neutral:
    for a handle on a live object with [S c] owners, the copy made for the
    call counts [S (S c)] owners inside the callee, which prints that number,
    and when the call ends the object, every count and the allocator are as
    before. *)
Theorem shared_by_value_neutral (s : shared_ptr) (a : addr) (o : object) (c : nat)
    (w : world) :
  sp_get s = Some a → heap w !! a = Some o → ctrl w !! sp_ctrl s = Some (S c) →
  ∃ w', (shared_ptr_copy s ≫= shared_ownership2) w = (w', Val tt) ∧
        heap w' = heap w ∧ ctrl w' = ctrl w ∧
        brk w' = brk w ∧ next_ctrl w' = next_ctrl w ∧
        numbers (emitted (shared_ptr_copy s ≫= shared_ownership2) w)
        = [Z.of_nat (S (S c))].
Proof.
  destruct s as [p k], w as [out hp ct b nc]. simpl. intros -> Hlive Hc.
  pose proof (copy_then_shared_ownership2 a k c out hp ct b nc Hc) as E.
  eexists. split; [exact E|]. simpl. repeat split.
  unfold emitted. rewrite E. simpl. by rewrite drop_app_length.
Qed.

Lemma shared_by_value_neutral_witness :
  ∃ w', (shared_ptr_copy (mk_shared (Some 0%nat) 0%nat) ≫= shared_ownership2)
          (mk_world [] {[ 0%nat := objB 1 ]} {[ 0%nat := 1%nat ]} 1%nat 1%nat)
        = (w', Val tt) ∧
        heap w' = {[ 0%nat := objB 1 ]} ∧ ctrl w' = {[ 0%nat := 1%nat ]} ∧
        brk w' = 1%nat ∧ next_ctrl w' = 1%nat ∧
        numbers (emitted (shared_ptr_copy (mk_shared (Some 0%nat) 0%nat)
                            ≫= shared_ownership2)
                   (mk_world [] {[ 0%nat := objB 1 ]} {[ 0%nat := 1%nat ]} 1%nat 1%nat))
        = [2].
Proof.
  exact (shared_by_value_neutral (mk_shared (Some 0%nat) 0%nat) 0%nat (objB 1) 0%nat
           (mk_world [] {[ 0%nat := objB 1 ]} {[ 0%nat := 1%nat ]} 1%nat 1%nat)
           eq_refl eq_refl eq_refl).
Defined.

Lemma shared_ownership_run (a : addr) (k c : nat) out hp ct b nc :
  ct !! k = Some (S c) →
  shared_ownership (mk_shared (Some a) k) (mk_world out hp ct b nc)
  = shared_ptr_dtor (mk_shared (Some a) k)
      (mk_world (out ++
         [Str "Took ownership of: "; Chr "("; Ptr a; Chr ")"; Chr nl;
          Str "use_count: "; Num (Z.of_nat (S c)); Chr nl;
          Str "Took ownership of: "; Chr "("; Ptr a; Chr ")"; Chr nl;
          Str "use_count: "; Num (Z.of_nat (S (S c))); Chr nl;
          Str "use_count: "; Num (Z.of_nat (S c)); Chr nl]) hp ct b nc).
Proof.
  intros H. unfold shared_ownership. simpl sp_get.
  rewrite took_line_run, (count_line_run _ _ (S c)) by done.
  change (arg ← shared_ptr_copy ?s; shared_ownership2 arg;; ?rest)
    with ((shared_ptr_copy s ≫= λ arg, shared_ownership2 arg) ≫= λ _, rest)
    || idtac.
  unfold mbind at 1, M_bind at 1.
  rewrite (shared_ptr_copy_run _ k (S c)) by done.
  unfold mbind at 1, M_bind at 1.
  rewrite (shared_ownership2_run a k (S (S c))) by apply lookup_insert_eq.
  rewrite (shared_ptr_dtor_more _ k c) by apply lookup_insert_eq.
  rewrite insert_insert_eq, (insert_id ct k (S c) H).
  rewrite (count_line_run _ _ (S c)) by done.
  by rewrite <- !(assoc_L (++)).
Qed.

(** X13. [shared_ownership] destroys the object iff the handle it was given
    is the only owner. Given a handle on a live object with [S c] owners, the
    call returns; with [c = 0] the object is freed, its control block is
    gone and "~A()" is printed once; with [c > 0] the object stays, the
    count drops to [c] and no destructor message is printed. *)
Theorem shared_ownership_last_owner (s : shared_ptr) (a : addr) (o : object)
    (c : nat) (w : world) :
  sp_get s = Some a → heap w !! a = Some o → ctrl w !! sp_ctrl s = Some (S c) →
  ∃ w', shared_ownership s w = (w', Val tt) ∧
        (c = 0%nat →
           heap w' = delete a (heap w) ∧ ctrl w' = delete (sp_ctrl s) (ctrl w) ∧
           dtor_messages (emitted (shared_ownership s) w) = [Str (line "~A()")]) ∧
        (c ≠ 0%nat →
           heap w' = heap w ∧ ctrl w' = <[sp_ctrl s := c]> (ctrl w) ∧
           dtor_messages (emitted (shared_ownership s) w) = []).
Proof.
  destruct s as [p k], w as [out hp ct b nc]. simpl. intros -> Hlive Hc.
  pose proof (shared_ownership_run a k c out hp ct b nc Hc) as E.
  destruct c as [|c].
  - rewrite (shared_ptr_dtor_last a o k) in E by done.
    eexists. split; [exact E|]. split; [|done]. intros _. simpl.
    repeat split. unfold emitted. rewrite E. simpl.
    by rewrite <- !(assoc_L (++)), drop_app_length.
  - rewrite (shared_ptr_dtor_more _ k c) in E by done.
    eexists. split; [exact E|]. split; [done|]. intros _. simpl.
    repeat split. unfold emitted. rewrite E. simpl.
    by rewrite drop_app_length.
Qed.

Lemma shared_ownership_last_owner_witness :
  ∃ w', shared_ownership (mk_shared (Some 0%nat) 0%nat)
          (mk_world [] {[ 0%nat := objC 5 ]} {[ 0%nat := 2%nat ]} 1%nat 1%nat)
        = (w', Val tt) ∧
        (1%nat = 0%nat →
           heap w' = delete 0%nat ({[ 0%nat := objC 5 ]} : gmap addr object) ∧
           ctrl w' = delete 0%nat ({[ 0%nat := 2%nat ]} : gmap nat nat) ∧
           dtor_messages (emitted (shared_ownership (mk_shared (Some 0%nat) 0%nat))
             (mk_world [] {[ 0%nat := objC 5 ]} {[ 0%nat := 2%nat ]} 1%nat 1%nat))
           = [Str (line "~A()")]) ∧
        (1%nat ≠ 0%nat →
           heap w' = {[ 0%nat := objC 5 ]} ∧
           ctrl w' = <[0%nat := 1%nat]> ({[ 0%nat := 2%nat ]} : gmap nat nat) ∧
           dtor_messages (emitted (shared_ownership (mk_shared (Some 0%nat) 0%nat))
             (mk_world [] {[ 0%nat := objC 5 ]} {[ 0%nat := 2%nat ]} 1%nat 1%nat))
           = []).
Proof.
  exact (shared_ownership_last_owner (mk_shared (Some 0%nat) 0%nat) 0%nat (objC 5)
           1%nat
           (mk_world [] {[ 0%nat := objC 5 ]} {[ 0%nat := 2%nat ]} 1%nat 1%nat)
           eq_refl eq_refl eq_refl).
Defined.

(** ** The two passes over the collections *)

Lemma foo_run (a : addr) (o : object) (w : world) :
  heap w !! a = Some o → foo a w = (set_cout (.++ [action o]) w, Val tt).
Proof. intros H. unfold foo. rewrite H. by destruct o. Qed.

(** X14. The second pass reports every slot of any collection whose non-empty
    handles point to live objects: it returns normally and prints exactly one
    value per slot, in order, the moved-away message for an empty slot and
    the action of the object's dynamic type for a live one; it changes
    nothing but the output. *)
Theorem second_pass_reports (vua : list unique_ptr) (w : world) :
  (∀ a, Some a ∈ vua → is_Some (heap w !! a)) →
  ∃ out, main_second_pass vua w = (set_cout (.++ out) w, Val tt) ∧
         Forall2 (λ ap i, slot_item (heap w) ap = Some i) vua out.
Proof.
  unfold main_second_pass. revert w.
  induction vua as [|ap vua IH]; intros w Hlive.
  - exists []. split; [|constructor]. simpl. by rewrite set_cout_nil.
  - assert (Hhead : ∃ i, report_slot ap w = (set_cout (.++ [i]) w, Val tt) ∧
                         slot_item (heap w) ap = Some i).
    { destruct ap as [a|]; simpl.
      - destruct (Hlive a) as [o Ho]; [left|].
        exists (action o). split; [by apply foo_run|]. by rewrite Ho.
      - by exists moved_away. }
    destruct Hhead as (i & Hrun & Hitem).
    destruct (IH (set_cout (.++ [i]) w)) as (out & Hrest & Hall).
    { intros a Ha. destruct w. simpl. apply Hlive. by right. }
    exists (i :: out). split.
    + simpl. unfold mbind, M_bind. rewrite Hrun, Hrest.
      by rewrite set_cout_app.
    + constructor; [done|]. by destruct w.
Qed.

Lemma second_pass_reports_witness :
  ∃ out, main_second_pass [Some 0%nat; None]
           (mk_world [] {[ 0%nat := objC 1 ]} ∅ 1%nat 0%nat)
         = (set_cout (.++ out) (mk_world [] {[ 0%nat := objC 1 ]} ∅ 1%nat 0%nat), Val tt) ∧
         Forall2 (λ ap i, slot_item {[ 0%nat := objC 1 ]} ap = Some i)
           [Some 0%nat; None] out.
Proof.
  refine (second_pass_reports [Some 0%nat; None]
            (mk_world [] {[ 0%nat := objC 1 ]} ∅ 1%nat 0%nat) _).
  intros a Ha. apply list_elem_of_In in Ha. simpl in Ha.
  destruct Ha as [[= <-]|[Ha|[]]]; [by eexists | discriminate Ha].
Defined.

Lemma first_loop_live (a : addr) (l : list (option addr)) (w : world) :
  for_each (Some a :: l) (λ ap, x ← deref ap; foo x) w
  = match heap w !! a with
    | Some o => for_each l (λ ap, x ← deref ap; foo x) (set_cout (.++ [action o]) w)
    | None => (w, Undef)
    end.
Proof.
  cbn [for_each]. unfold mbind at 1, M_bind at 1.
  unfold mbind at 1, M_bind at 1, deref at 1, mret at 1, M_ret at 1.
  unfold foo at 1. by destruct (heap w !! a) as [[x|y]|].
Qed.

Lemma first_loop_empty (l : list (option addr)) (w : world) :
  for_each (None :: l) (λ ap, x ← deref ap; foo x) w = (w, Undef).
Proof. reflexivity. Qed.

Lemma first_loop_cases (l : list (option addr)) (w : world) :
  snd (for_each l (λ ap, x ← deref ap; foo x) w) = Val tt ∨
  snd (for_each l (λ ap, x ← deref ap; foo x) w) = Undef.
Proof.
  revert w. induction l as [|[a|] l IH]; intros w.
  - by left.
  - rewrite first_loop_live. destruct (heap w !! a); [apply IH|by right].
  - rewrite first_loop_empty. by right.
Qed.

Lemma first_loop_null (l : list (option addr)) (w : world) :
  None ∈ l → snd (for_each l (λ ap, x ← deref ap; foo x) w) = Undef.
Proof.
  revert w. induction l as [|[a|] l IH]; intros w Hin.
  - by apply elem_of_nil in Hin.
  - apply elem_of_cons in Hin as [?|Hin]; [done|].
    rewrite first_loop_live. destruct (heap w !! a); [by apply IH|done].
  - by rewrite first_loop_empty.
Qed.

Lemma bind_snd {A B : Type} (m : M A) (f : A → M B) (w : world) :
  snd ((m ≫= f) w)
  = match snd (m w) with
    | Val a => snd (f a (fst (m w)))
    | Exc e => Exc e
    | Undef => Undef
    end.
Proof. unfold mbind, M_bind. by destruct (m w) as [w' [a| |]]. Qed.

(** X15. The first pass (lines 192-198) dereferences every handle without a
    check, unlike the second: if either collection holds an empty handle the
    pass is undefined, whatever the other slots are. *)
Theorem first_pass_unchecked (vua : list unique_ptr) (vpa : list (option addr))
    (w : world) :
  None ∈ vua ∨ None ∈ vpa → snd (main_first_pass vua vpa w) = Undef.
Proof.
  intros Hin. unfold main_first_pass, unique_ptr in *. rewrite bind_snd.
  destruct Hin as [Hin|Hin].
  - by rewrite (first_loop_null vua w Hin).
  - destruct (first_loop_cases vua w) as [-> | ->]; [|done].
    apply (first_loop_null vpa _ Hin).
Qed.

Lemma first_pass_unchecked_witness :
  snd (main_first_pass [Some 0%nat; None] []
         (mk_world [] {[ 0%nat := objB 3 ]} ∅ 1%nat 0%nat)) = Undef.
Proof.
  apply (first_pass_unchecked [Some 0%nat; None] []).
  left. apply list_elem_of_In. simpl. auto.
Defined.

(** X16. A hand-off cannot be repeated. When line 201 succeeds on a
    collection, slot 1 of the collection it leaves is empty and the other
    slots are unchanged; running line 201 again on that collection
    dereferences the empty handle and is undefined. *)
Theorem hand_off_once (vua vua' : list unique_ptr) (w w' : world) :
  main_hand_off vua w = (w', Val vua') →
  vua' = <[1%nat := None]> vua ∧ (1 < length vua)%nat ∧
  snd (main_hand_off vua' w') = Undef.
Proof.
  unfold main_hand_off. unfold mbind at 1, M_bind at 1, lift at 1, subscript at 1.
  destruct (vua !! 1%nat) as [u|] eqn:Eu; [|discriminate].
  pose proof (lookup_lt_Some _ _ _ Eu) as Hlen.
  unfold unique_ptr_move.
  unfold mbind at 1, M_bind at 1, lift at 1, assign at 1.
  destruct (decide (1 < length vua)%nat) as [_|]; [|lia].
  unfold mbind at 1, M_bind at 1.
  destruct (takes_ownership u w) as [w1 [[]| |]] eqn:Et; [|discriminate..].
  unfold mret, M_ret. intros [= <- <-].
  split; [done|]. split; [done|].
  unfold mbind at 1, M_bind at 1, lift at 1, subscript at 1.
  rewrite list_lookup_insert_eq by done.
  unfold unique_ptr_move.
  unfold mbind at 1, M_bind at 1, lift at 1, assign at 1.
  destruct (decide _) as [_|Hn]; [|by rewrite length_insert in Hn].
  unfold mbind at 1, M_bind at 1.
  reflexivity.
Qed.

Lemma hand_off_once_witness :
  [Some 0%nat; None] = <[1%nat := None]> [Some 0%nat; Some 1%nat] ∧
  (1 < length [Some 0%nat; Some 1%nat])%nat ∧
  snd (main_hand_off [Some 0%nat; None]
         (mk_world [Str "Took ownership of: "; Chr "("; Ptr 1; Chr ")"; Chr nl;
                    Str (line "~A()")]
            {[ 0%nat := objB 3 ]} ∅ 2%nat 0%nat)) = Undef.
Proof.
  apply (hand_off_once [Some 0%nat; Some 1%nat] [Some 0%nat; None]
           (mk_world [] {[ 0%nat := objB 3; 1%nat := objB 4 ]} ∅ 2%nat 0%nat)).
  vm_compute. reflexivity.
Defined.

(** X17. What [main] leaves behind. For any storage content and any prior
    output, the run from line 178 ends normally with every managed object
    freed and no control block left, while the four objects created with
    [new] for the collection of raw pointers are still allocated: they are
    never deleted. *)
Theorem main_tail_leaves (junk : addr → Z) (out0 : list item) :
  snd (main_tail junk (line_178 out0)) = Val tt ∧
  heap (fst (main_tail junk (line_178 out0)))
  = {[ 4%nat := objB 1; 5%nat := objB 2;
       6%nat := objC (junk 6%nat); 7%nat := objC (junk 7%nat) ]} ∧
  ctrl (fst (main_tail junk (line_178 out0))) = ∅.
Proof. repeat split; vm_compute; reflexivity. Qed.

(** ** Callables in general *)

(** X18. The three callables of [main] on any input and with any later
    value of the captured variables: the closure that captures [greet] by
    reference prefixes the current value of [greet]; the closure that
    captured [secret] by value embeds 42 whatever [secret] has become; the
    [Adder] prefixes the "Bye, " it was constructed with. *)
Theorem gallery_captures (env : locals) (name : string) :
  map (λ f : fn, f env name) main_fv
  = [greet env +:+ name; name +:+ "got the secret (42)"; "Bye, " +:+ name].
Proof.
  unfold main_fv. cbn [app map].
  destruct (lambda_bar_keeps_copy (secret main_locals) env env name) as [_ E].
  rewrite E. reflexivity.
Qed.

Lemma flat_map_map {A B C : Type} (g : B → list C) (h : A → B) (l : list A) :
  flat_map g (map h l) = flat_map (λ x, g (h x)) l.
Proof. induction l as [|x l IH]; simpl; [done|]. by rewrite IH. Qed.

(** X19. The collection pass followed by the printing loop, for any sequence
    of callables, any input and any captured variables: it ends normally,
    prints one marker per callable first and then each callable's output on
    its own line, in the order in which the callables were inserted. *)
Theorem gallery_in_order (env : locals) (john : string) (fv : list fn) (w : world) :
  snd ((collect env john fv [] ≫= main_print) w) = Val tt ∧
  emitted (collect env john fv [] ≫= main_print) w
  = replicate (length fv) (Str (line "a"))
    ++ flat_map (λ f : fn, [Str (f env john); Chr nl]) fv.
Proof.
  assert (E : (collect env john fv [] ≫= main_print) w
    = (set_cout (.++ replicate (length fv) (Str (line "a"))
                     ++ flat_map (λ f : fn, [Str (f env john); Chr nl]) fv) w,
       Val tt)).
  { unfold mbind, M_bind. rewrite collect_run, main_print_run. simpl.
    by rewrite set_cout_app, flat_map_map. }
  split; [by rewrite E|]. by apply emitted_set_cout with (r := Val tt).
Qed.
